(** * Classification viewer generator: transform stage and tree viewer

    A shallow embedding of [src/scripts/generate-classification-viewer.js]:
    the offline transform ([transformData], [transformItems], [countItems])
    and the script of the generated page ([buildMaps], [renderTree],
    [toggleNode], [selectNode], [showDetail], [getPath],
    [countDescendants], [search]).

    JavaScript strings are sequences of UTF-16 code units, the parsed input
    is a JSON value, the two [Map]s of the page are finite maps, the set of
    matching ids is a finite set, and the rendered tree is a tree of
    elements carrying the class flags the script toggles. *)

From Stdlib Require Import NArith ZArith String Ascii.
From stdpp Require Import base option list gmap.

Set Default Proof Using "Type".
#[local] Set Warnings "-register-all,-clear-no-such-hyp".
Open Scope N_scope.
Open Scope nat_scope.

(** ** Strings *)

(** A string is its sequence of code units. *)
Abbreviation jsstring := (list N).

(** Literals of the source, written as Rocq strings (one code unit per
    character; the literals used below are all Basic Latin). *)
Definition str (s : string) : jsstring :=
  N_of_ascii <$> list_ascii_of_string s.

(** [WhiteSpace] and [LineTerminator] of ECMAScript: what [\s] matches in a
    regular expression and what [trim] strips. *)
Definition isWhiteSpace (c : N) : bool :=
  ((9 <=? c) && (c <=? 13) || (c =? 32) || (c =? 160) || (c =? 5760)
   || (8192 <=? c) && (c <=? 8202) || (c =? 8232) || (c =? 8233)
   || (c =? 8239) || (c =? 8287) || (c =? 12288) || (c =? 65279))%N.

Definition hyphen : N := 45%N.
Definition underscore : N := 95%N.

(** The character class [[\s-]]. *)
Definition isSeparator (c : N) : bool := isWhiteSpace c || (c =? hyphen)%N.

(** [s.replace(/[\s-]/g, '_')] *)
Definition replaceSeparators (s : jsstring) : jsstring :=
  (λ c, if isSeparator c then underscore else c) <$> s.

Fixpoint trimStart (s : jsstring) : jsstring :=
  match s with
  | c :: rest => if isWhiteSpace c then trimStart rest else s
  | [] => []
  end.

Definition trimEnd (s : jsstring) : jsstring := rev (trimStart (rev s)).

(** [s.trim()] *)
Definition trim (s : jsstring) : jsstring := trimEnd (trimStart s).

Fixpoint startsWith (s t : jsstring) : bool :=
  match t, s with
  | [], _ => true
  | _ :: _, [] => false
  | c :: t', d :: s' => (c =? d)%N && startsWith s' t'
  end.

(** [s.includes(t)] *)
Fixpoint includes (s t : jsstring) : bool :=
  startsWith s t ||
  match s with
  | [] => false
  | _ :: s' => includes s' t
  end.

(** ** Values and outcomes *)

(** What [JSON.parse] returns, plus [undefined] for the results of property
    reads.  Only the zero-ness of a number is ever observed; the fields of
    an object are its own properties, one binding per key. *)
Inductive Value : Type :=
  | Undefined
  | Null
  | Bool (b : bool)
  | Num (z : Z)
  | Str (s : jsstring)
  | Arr (elements : list Value)
  | Obj (fields : list (jsstring * Value)).

Inductive Exn : Type :=
  | TypeError
    (** reading a property of [null] or [undefined], calling a missing
        method *)
  | StructuralError
    (** [new Error('Invalid JSON structure - cannot find System')] *).

(** The result of running a piece of the script: a value, an exception, or
    the loop budget of the model used up before the script finished. *)
Inductive Outcome (A : Type) : Type :=
  | Return (a : A)
  | Throw (e : Exn)
  | OutOfFuel.
Arguments Return {A} a.
Arguments Throw {A} e.
Arguments OutOfFuel {A}.

#[global] Instance Outcome_ret : MRet Outcome := λ A a, Return a.
#[global] Instance Outcome_bind : MBind Outcome := λ A B f m,
  match m with
  | Return a => f a
  | Throw e => Throw e
  | OutOfFuel => OutOfFuel
  end.

Definition truthy (v : Value) : bool :=
  match v with
  | Undefined | Null | Bool false | Str [] => false
  | Num z => negb (z =? 0)%Z
  | _ => true
  end.

(** [a || b] *)
Definition or_else (a b : Value) : Value := if truthy a then a else b.

Fixpoint assoc (key : jsstring) (fields : list (jsstring * Value)) : Value :=
  match fields with
  | [] => Undefined
  | (k, v) :: rest => if decide (k = key) then v else assoc key rest
  end.

(** [v.key] and [v[0]] (the key ["0"]) on a [v] that is neither [null] nor
    [undefined].  The script reads only index 0 and capitalised field
    names, none of which is a built-in property of arrays, strings, numbers
    or booleans. *)
Definition property (v : Value) (key : jsstring) : Value :=
  match v with
  | Obj fields => assoc key fields
  | Arr elements =>
      if decide (key = str "0") then default Undefined (head elements)
      else Undefined
  | Str s =>
      if decide (key = str "0")
      then match s with c :: _ => Str [c] | [] => Undefined end
      else Undefined
  | _ => Undefined
  end.

(** [v.key] *)
Definition get (v : Value) (key : jsstring) : Outcome Value :=
  match v with
  | Undefined | Null => Throw TypeError
  | _ => Return (property v key)
  end.

(** [v?.key] *)
Definition get_opt (v : Value) (key : jsstring) : Value :=
  match v with
  | Undefined | Null => Undefined
  | _ => property v key
  end.

(** [v?.[0]] *)
Definition first_opt (v : Value) : Value := get_opt v (str "0").

(** ** The canonical tree *)

Inductive Node : Type := MkNode {
  id : jsstring;
  id_display : jsstring;
  name : jsstring;
  description : Value;
  children : list Node
}.

(** ** Transform stage *)

(** Nesting depth of a value: the recursion of [transformItems] descends
    one level of [Item] arrays per call. *)
Fixpoint height (v : Value) : nat :=
  match v with
  | Arr elements => foldr (λ x h, S (height x) `max` h) 0 elements
  | Obj fields =>
      foldr (λ kv h, S (match kv with (_, x) => height x end) `max` h) 0 fields
  | _ => 0
  end.

(** [id.replace(...)], [name.trim()]: method calls that need a string *)
Definition as_string (v : Value) : Outcome jsstring :=
  match v with
  | Str s => Return s
  | _ => Throw TypeError
  end.

(** [item.KEY?.[0] || ''], the value of [const id], [const name] and
    [const description]. *)
Definition field_or_empty (item : Value) (key : jsstring) : Outcome Value :=
  field ← get item key;
  Return (or_else (first_opt field) (Str [])).

(** [item.Children?.[0]?.Item || []], the value of [const children]. *)
Definition childItems (item : Value) : Outcome Value :=
  field ← get item (str "Children");
  Return (or_else (get_opt (first_opt field) (str "Item")) (Arr [])).

(** The arrow function of [transformItems], [recur] being the recursive
    call on the children. *)
Definition transformItem (recur : Value → Outcome (list Node))
    (item : Value) : Outcome Node :=
  id ← field_or_empty item (str "ID");
  name ← field_or_empty item (str "Name");
  description ← field_or_empty item (str "Description");
  children ← childItems item;
  ids ← as_string id;
  names ← as_string name;
  kids ← recur children;
  Return {| id := replaceSeparators ids;
            id_display := ids;
            name := trim names;
            description :=
              or_else description (Str (names ++ str " classification item."));
            children := kids |}.

Fixpoint transformItems_rec (fuel : nat) (items : Value) : Outcome (list Node) :=
  match items with
  | Arr elements =>
      mapM (λ item,
              match fuel with
              | 0 => OutOfFuel
              | S fuel' => transformItem (transformItems_rec fuel') item
              end) elements
  | _ => Return []
  end.

(** [transformItems(items)]: the nesting depth of [items] bounds the depth
    of the recursion (lemma [transformItems_rec_enough]). *)
Definition transformItems (items : Value) : Outcome (list Node) :=
  transformItems_rec (height items) items.

Record SystemInfo : Type := MkSystemInfo {
  sys_name : Value;
  sys_version : Value;
  sys_description : Value;
  sys_source : Value
}.

(** [sourceData.BuildingInformation?.Classification?.[0]?.System?.[0]] *)
Definition locateSystem (sourceData : Value) : Outcome Value :=
  bi ← get sourceData (str "BuildingInformation");
  Return (first_opt (get_opt (first_opt (get_opt bi (str "Classification")))
                             (str "System"))).

(** [system.Items?.[0]?.Item || []] *)
Definition systemItems (system : Value) : Value :=
  or_else (get_opt (first_opt (property system (str "Items"))) (str "Item"))
          (Arr []).

Definition transformData (sourceData : Value)
    : Outcome (SystemInfo * list Node) :=
  system ← locateSystem sourceData;
  if negb (truthy system) then Throw StructuralError
  else
    let systemInfo :=
      {| sys_name := or_else (first_opt (property system (str "Name")))
                             (Str (str "Unknown"));
         sys_version :=
           or_else (first_opt (property system (str "EditionVersion"))) (Str []);
         sys_description :=
           or_else (first_opt (property system (str "Description"))) (Str []);
         sys_source :=
           or_else (first_opt (property system (str "Source"))) (Str []) |} in
    let items := systemItems system in
    treeData ← transformItems items;
    Return (systemInfo, treeData).

(** The reading of "collapsed to a single separator" in which a maximal
    run of white space and hyphens leaves one underscore; [in_run] tells
    whether the previous code unit was a separator.  This follows the
    specification's words, for comparison with [replaceSeparators]. *)
Fixpoint collapseSeparators_from (in_run : bool) (s : jsstring) : jsstring :=
  match s with
  | [] => []
  | c :: rest =>
      if isSeparator c
      then (if in_run then [] else [underscore]) ++ collapseSeparators_from true rest
      else c :: collapseSeparators_from false rest
  end.

Definition collapseSeparators (s : jsstring) : jsstring :=
  collapseSeparators_from false s.

Definition is_string (v : Value) : Prop := ∃ s, v = Str s.

(** Items the arrow function of [transformItems] can digest: no item is
    [null], and where an [ID] or [Name] is supplied (first entry truthy) it
    is a string; likewise at every depth.  All four fields may be absent. *)
Inductive WellFormedItems : Value → Prop :=
  | wf_not_an_array (items : Value) :
      (∀ elements, items ≠ Arr elements) → WellFormedItems items
  | wf_array (elements : list Value) :
      Forall WellFormedItem elements → WellFormedItems (Arr elements)
with WellFormedItem : Value → Prop :=
  | wf_item (item : Value) :
      item ≠ Null → item ≠ Undefined →
      is_string (or_else (first_opt (property item (str "ID"))) (Str [])) →
      is_string (or_else (first_opt (property item (str "Name"))) (Str [])) →
      WellFormedItems
        (or_else (get_opt (first_opt (property item (str "Children"))) (str "Item"))
                 (Arr [])) →
      WellFormedItem item.

(** [countItems(items)]; the helper is the recursive call
    [countItems(item.children)] made in the loop. *)
Fixpoint countItems_children (item : Node) : nat :=
  match item with
  | MkNode _ _ _ _ ch =>
      foldl (λ count child, count + countItems_children child) (length ch) ch
  end.

Definition countItems (items : list Node) : nat :=
  foldl (λ count item, count + countItems_children item) (length items) items.

(** ** Addresses in the forest *)

(** A node, and the element rendered for it, is addressed by the child
    indices on the way down from the top level: [[i]] is the [i]-th root,
    [[i; j]] its [j]-th child. The depth of a node is the length of its
    address (a root has depth 1). *)
Abbreviation address := (list nat).

Fixpoint node_at (path : address) (nodes : list Node) : option Node :=
  match path with
  | [] => None
  | i :: rest =>
      node ← nodes !! i;
      match rest with
      | [] => Some node
      | _ => node_at rest (children node)
      end
  end.

(** A node followed by its descendants, in depth-first order. *)
Fixpoint subtree (node : Node) : list Node :=
  match node with
  | MkNode _ _ _ _ ch => node :: (ch ≫= subtree)
  end.

(** All nodes of a forest, every depth, in the order [buildMaps] and
    [renderTree] visit them. *)
Definition flatten (nodes : list Node) : list Node := nodes ≫= subtree.

(** Ids are pairwise distinct across the whole forest. *)
Definition unique_ids (nodes : list Node) : Prop := NoDup (id <$> flatten nodes).

(** No node carries the id of one of its ancestors; [above] holds the ids
    met on the way down. *)
Fixpoint no_ancestor_clash_node (above : list jsstring) (node : Node) : bool :=
  match node with
  | MkNode nid _ _ _ ch =>
      bool_decide (nid ∉ above) && forallb (no_ancestor_clash_node (nid :: above)) ch
  end.

Definition no_ancestor_clash (nodes : list Node) : bool :=
  forallb (no_ancestor_clash_node []) nodes.

(** The ids on the way from the root down to the node at [path]. *)
Fixpoint ids_along (path : address) (nodes : list Node) : list jsstring :=
  match path with
  | [] => []
  | i :: rest =>
      match nodes !! i with
      | Some node => id node :: ids_along rest (children node)
      | None => []
      end
  end.

(** ** The page: indices *)

Record Maps : Type := MkMaps {
  nodeMap : gmap jsstring Node;
  parentMap : gmap jsstring jsstring
}.

(** The body of the [forEach] callback of [buildMaps] for one node; the
    inner fold is the call [buildMaps(node.children, node)] (a fold over no
    children changes nothing, as the guarded call does). *)
Fixpoint buildMaps_node (parent : option Node) (node : Node) (maps : Maps) : Maps :=
  match node with
  | MkNode nid _ _ _ ch =>
      let maps1 := MkMaps (<[nid := node]> (nodeMap maps)) (parentMap maps) in
      let maps2 :=
        match parent with
        | Some p => MkMaps (nodeMap maps1) (<[nid := id p]> (parentMap maps1))
        | None => maps1
        end in
      foldl (λ m child, buildMaps_node (Some node) child m) maps2 ch
  end.

Definition buildMaps (nodes : list Node) (parent : option Node) (maps : Maps) : Maps :=
  foldl (λ m node, buildMaps_node parent node m) maps nodes.

(** [while (parentMap.has(current)) { current = parentMap.get(current);
    body(current) }], the loop of [getPath] and of [search]. *)
Fixpoint whileHasParent {A : Type} (fuel : nat) (parents : gmap jsstring jsstring)
    (body : jsstring → A → A) (current : jsstring) (acc : A) : Outcome A :=
  match parents !! current with
  | None => Return acc
  | Some parent =>
      match fuel with
      | 0 => OutOfFuel
      | S fuel' => whileHasParent fuel' parents body parent (body parent acc)
      end
  end.

(** [getPath(nodeId)]: [path.unshift(current)] in the loop. *)
Definition getPath (fuel : nat) (parents : gmap jsstring jsstring)
    (nodeId : jsstring) : Outcome (list jsstring) :=
  whileHasParent fuel parents (λ current path, current :: path) nodeId [nodeId].

Fixpoint countDescendants (node : Node) : nat :=
  match node with
  | MkNode _ _ _ _ ch =>
      foldl (λ sum child, sum + 1 + countDescendants child) 0 ch
  end.

(** ** The page: rendered tree *)

(** What the script reads and writes on the [div.tree-node] rendered for a
    node: its [data-*] attributes, its classes, the [selected] class of its
    [.tree-node-content] and the classes of its [.tree-toggle]. *)
Record TreeNodeEl : Type := MkTreeNodeEl {
  data_id : jsstring;
  data_level : nat;
  expanded : bool;
  search_hidden : bool;
  search_match : bool;
  selected : bool;
  toggle_hidden : bool;
  toggle_expanded : bool
}.

(** A [div.tree-node] with the tree nodes inside its [.tree-children]. *)
Inductive Element : Type := MkElement {
  el : TreeNodeEl;
  tree_children : list Element
}.

Fixpoint renderNode (level : nat) (node : Node) : Element :=
  match node with
  | MkNode nid _ _ _ ch =>
      let hasChildren := bool_decide (0 < length ch) in
      MkElement
        {| data_id := nid; data_level := level;
           expanded := false; search_hidden := false; search_match := false;
           selected := false;
           toggle_hidden := negb hasChildren; toggle_expanded := false |}
        (renderNode (S level) <$> ch)
  end.

(** [renderTree(nodes, container, level)] into an empty container. *)
Definition renderTree (nodes : list Node) (level : nat) : list Element :=
  renderNode level <$> nodes.

Fixpoint elem_at (path : address) (els : list Element) : option Element :=
  match path with
  | [] => None
  | i :: rest =>
      e ← els !! i;
      match rest with
      | [] => Some e
      | _ => elem_at rest (tree_children e)
      end
  end.

(** Apply [f] to the element at [path]. *)
Fixpoint update_at (path : address) (f : TreeNodeEl → TreeNodeEl)
    (els : list Element) : list Element :=
  match path with
  | [] => els
  | i :: rest =>
      alter (λ e,
               match rest with
               | [] => MkElement (f (el e)) (tree_children e)
               | _ => MkElement (el e) (update_at rest f (tree_children e))
               end) i els
  end.

(** [document.querySelectorAll('.tree-node').forEach(f)] for a callback
    that touches only the element it is given. *)
Fixpoint forEachUnder (f : TreeNodeEl → TreeNodeEl) (e : Element) : Element :=
  match e with
  | MkElement a kids => MkElement (f a) (forEachUnder f <$> kids)
  end.

Definition forEachTreeNode (f : TreeNodeEl → TreeNodeEl)
    (els : list Element) : list Element :=
  forEachUnder f <$> els.

(** First element of a list, in order, on which [f] answers. *)
Fixpoint first_answer {A B : Type} (f : A → option B) (i : nat) (l : list A)
    : option (nat * B) :=
  match l with
  | [] => None
  | x :: rest =>
      match f x with
      | Some b => Some (i, b)
      | None => first_answer f (S i) rest
      end
  end.

(** Address, below [e], of the first element in document order whose
    [data-id] is [nodeId] ([[]] is [e] itself). *)
Fixpoint findUnder (nodeId : jsstring) (e : Element) : option address :=
  match e with
  | MkElement a kids =>
      if decide (data_id a = nodeId) then Some []
      else '(i, p) ← first_answer (findUnder nodeId) 0 kids; Some (i :: p)
  end.

(** [document.querySelector(`.tree-node[data-id="${nodeId}"]`)].  The
    selector is built by pasting the id between double quotes; this is its
    meaning for an id that reads back as itself there (no double quote,
    backslash or line break in it). *)
Definition querySelector (nodeId : jsstring) (els : list Element) : option address :=
  '(i, p) ← first_answer (findUnder nodeId) 0 els; Some (i :: p).

(** [nodeEl.classList.toggle('expanded', shouldExpand)] and the same on the
    element's toggle. *)
Definition toggleNode (expand : option bool) (a : TreeNodeEl) : TreeNodeEl :=
  let shouldExpand :=
    match expand with
    | Some b => b
    | None => negb (expanded a)
    end in
  {| data_id := data_id a; data_level := data_level a;
     expanded := shouldExpand;
     search_hidden := search_hidden a; search_match := search_match a;
     selected := selected a;
     toggle_hidden := toggle_hidden a; toggle_expanded := shouldExpand |}.

Definition set_selected (b : bool) (a : TreeNodeEl) : TreeNodeEl :=
  {| data_id := data_id a; data_level := data_level a;
     expanded := expanded a;
     search_hidden := search_hidden a; search_match := search_match a;
     selected := b;
     toggle_hidden := toggle_hidden a; toggle_expanded := toggle_expanded a |}.

Definition set_search (hidden matched : bool) (a : TreeNodeEl) : TreeNodeEl :=
  {| data_id := data_id a; data_level := data_level a;
     expanded := expanded a;
     search_hidden := hidden; search_match := matched;
     selected := selected a;
     toggle_hidden := toggle_hidden a; toggle_expanded := toggle_expanded a |}.

(** The [while (parent && parent.classList)] loop of [selectNode]: [up] is
    the address of [parent] read from the element outwards, so that
    [parent.parentElement] is its tail; the [.tree-children] boxes in
    between do not carry the class [tree-node] and are stepped over. *)
Fixpoint expandParents (up : list nat) (els : list Element) : list Element :=
  match up with
  | [] => els
  | _ :: outer => expandParents outer (update_at (rev up) (toggleNode (Some true)) els)
  end.

(** The same traversal for a callback that may throw. *)
Fixpoint forEachUnderM (f : TreeNodeEl → Outcome TreeNodeEl) (e : Element)
    : Outcome Element :=
  match e with
  | MkElement a kids =>
      a' ← f a;
      kids' ← mapM (forEachUnderM f) kids;
      Return (MkElement a' kids')
  end.

Definition forEachTreeNodeM (f : TreeNodeEl → Outcome TreeNodeEl)
    (els : list Element) : Outcome (list Element) :=
  mapM (forEachUnderM f) els.

(** ** The page: detail pane and state *)

Record HierarchyItem : Type := MkHierarchyItem {
  hierarchy_target : jsstring;
  hierarchy_current : bool;
  hierarchy_level : nat;
  hierarchy_code : jsstring;
  hierarchy_name : jsstring
}.

Record ChildItem : Type := MkChildItem {
  child_target : jsstring;
  child_code : jsstring;
  child_name : jsstring;
  child_count : option nat
}.

(** What [showDetail] writes. A breadcrumb entry is the id its click
    selects and its label; the separators sit between the entries. *)
Record Detail : Type := MkDetail {
  detailCode : jsstring;
  detailName : jsstring;
  descriptionText : Value;
  statChildren : nat;
  statDescendants : nat;
  statLevel : nat;
  breadcrumb : list (jsstring * jsstring);
  hierarchyPath : list HierarchyItem;
  childrenContainer : list ChildItem
}.

(** [detailView = None]: the empty state is still shown. *)
Record Page : Type := MkPage {
  maps : Maps;
  selectedNode : option jsstring;
  treeContainer : list Element;
  detailView : option Detail
}.

(** The page once its script has run: [buildMaps(treeData)],
    [selectedNode = null], [renderTree(treeData, treeContainer)]. *)
Definition load (treeData : list Node) : Page :=
  {| maps := buildMaps treeData None (MkMaps ∅ ∅);
     selectedNode := None;
     treeContainer := renderTree treeData 0;
     detailView := None |}.

(** [nodeMap.get(id)] followed by a property read. *)
Definition getNode (nodes : gmap jsstring Node) (nodeId : jsstring) : Outcome Node :=
  match nodes !! nodeId with
  | Some n => Return n
  | None => Throw TypeError
  end.

Definition showDetail (fuel : nat) (nodeId : jsstring) (page : Page) : Outcome Page :=
  match nodeMap (maps page) !! nodeId with
  | None => Return page
  | Some node =>
      levelPath ← getPath fuel (parentMap (maps page)) nodeId;
      path ← getPath fuel (parentMap (maps page)) nodeId;
      crumbs ← mapM (λ id, n ← getNode (nodeMap (maps page)) id;
                            Return (id, id_display n)) path;
      hierarchy ← mapM (λ '(i, id), n ← getNode (nodeMap (maps page)) id;
                                     Return {| hierarchy_target := id;
                                               hierarchy_current := bool_decide (id = nodeId);
                                               hierarchy_level := i + 1;
                                               hierarchy_code := id_display n;
                                               hierarchy_name := name n |})
                       (imap (λ i id, (i, id)) path);
      let grid :=
        (λ child, {| child_target := id child;
                     child_code := id_display child;
                     child_name := name child;
                     child_count :=
                       if bool_decide (0 < length (children child))
                       then Some (length (children child)) else None |})
          <$> children node in
      Return {| maps := maps page;
                selectedNode := selectedNode page;
                treeContainer := treeContainer page;
                detailView :=
                  Some {| detailCode := id_display node;
                          detailName := name node;
                          descriptionText :=
                            or_else (description node)
                                    (Str (str "No description available."));
                          statChildren := length (children node);
                          statDescendants := countDescendants node;
                          statLevel := length levelPath;
                          breadcrumb := crumbs;
                          hierarchyPath := hierarchy;
                          childrenContainer := grid |} |}
  end.

Definition selectNode (fuel : nat) (nodeId : jsstring) (page : Page) : Outcome Page :=
  let cleared := forEachTreeNode (set_selected false) (treeContainer page) in
  let marked :=
    match querySelector nodeId cleared with
    | Some nodeEl =>
        expandParents (tail (rev nodeEl)) (update_at nodeEl (set_selected true) cleared)
    | None => cleared
    end in
  showDetail fuel nodeId
    {| maps := maps page;
       selectedNode := Some nodeId;
       treeContainer := marked;
       detailView := detailView page |}.

Section Search.
(** [String.prototype.toLowerCase], left to the host. *)
Variable toLowerCase : jsstring → jsstring.

(** The test made twice in [search], on a node and the trimmed,
    lower-cased term. *)
Definition matchesTerm (lowerTerm : jsstring) (node : Node) : bool :=
  includes (toLowerCase (id_display node)) lowerTerm
  || includes (toLowerCase (name node)) lowerTerm.

(** The callback of [nodeMap.forEach]. *)
Definition collectMatch (fuel : nat) (parents : gmap jsstring jsstring)
    (lowerTerm : jsstring) (matchingIds : gset jsstring)
    (entry : jsstring * Node) : Outcome (gset jsstring) :=
  if matchesTerm lowerTerm entry.2
  then whileHasParent fuel parents (λ current ids, {[current]} ∪ ids)
         entry.1 ({[entry.1]} ∪ matchingIds)
  else Return matchingIds.

(** The callback of the second [querySelectorAll('.tree-node').forEach]. *)
Definition markNode (nodes : gmap jsstring Node) (lowerTerm : jsstring)
    (matchingIds : gset jsstring) (a : TreeNodeEl) : Outcome TreeNodeEl :=
  if decide (data_id a ∈ matchingIds)
  then
    node ← getNode nodes (data_id a);
    if matchesTerm lowerTerm node
    then Return (toggleNode (Some true) (set_search (search_hidden a) true a))
    else Return a
  else Return (set_search true (search_match a) a).

(** [search(term)].  The entries of [nodeMap] are visited in some order;
    what is collected is a set.  No element of class [highlight-text] is
    ever created, so the second loop of the source has nothing to do. *)
Definition search (fuel : nat) (term : jsstring) (page : Page) : Outcome Page :=
  let lowerTerm := trim (toLowerCase term) in
  let cleared := forEachTreeNode (set_search false false) (treeContainer page) in
  if decide (lowerTerm = [])
  then Return {| maps := maps page; selectedNode := selectedNode page;
                 treeContainer := cleared; detailView := detailView page |}
  else
    matchingIds ← foldl (λ acc entry,
                           ids ← acc;
                           collectMatch fuel (parentMap (maps page)) lowerTerm ids entry)
                        (Return ∅) (map_to_list (nodeMap (maps page)));
    marked ← forEachTreeNodeM
               (markNode (nodeMap (maps page)) lowerTerm matchingIds) cleared;
    Return {| maps := maps page; selectedNode := selectedNode page;
              treeContainer := marked; detailView := detailView page |}.
End Search.

(** Lower-casing of the letters A to Z, which is what [toLowerCase] does on
    a string of Basic Latin code units. *)
Definition toLowerCaseBasicLatin (s : jsstring) : jsstring :=
  (λ c, if (65 <=? c)%N && (c <=? 90)%N then (c + 32)%N else c) <$> s.

(** ** Sample data *)

Definition sampleNode (code label : string) (ch : list Node) : Node :=
  {| id := str code; id_display := str code; name := str label;
     description := Str (str "about " ++ str label); children := ch |}.

(** The forest [A → [A1 → [A1a], A2]]. *)
Definition sampleForest : list Node :=
  [sampleNode "A" "Alpha"
     [sampleNode "A1" "One" [sampleNode "A1a" "First"  []];
      sampleNode "A2" "Two" []]].

(** Two trees that reuse each other's ids: [a → [b]] and [b → [a]]. *)
Definition crossedForest : list Node :=
  [sampleNode "a" "first" [sampleNode "b" "inner" []];
   sampleNode "b" "second" [sampleNode "a" "inner" []]].

(** A source record with [system] at
    [BuildingInformation.Classification[0].System[0]]. *)
Definition sourceRecord (system : Value) : Value :=
  Obj [(str "BuildingInformation",
        Obj [(str "Classification", Arr [Obj [(str "System", Arr [system])]])])].

(** A system whose [Items[0].Item] is [items]. *)
Definition systemWith (items : list Value) : Value :=
  Obj [(str "Name", Arr [Str (str "Uniclass 2015")]);
       (str "Items", Arr [Obj [(str "Item", Arr items)]])].

(** ** Bookkeeping for the proofs *)

(** The [parentMap.set] calls made by the callback of [buildMaps] for
    [node] and below, in the order they are made. *)
Fixpoint parentWrites_node (parent : option Node) (node : Node)
    : list (jsstring * jsstring) :=
  match node with
  | MkNode nid _ _ _ ch =>
      match parent with
      | Some p => [(nid, id p)]
      | None => []
      end ++ (ch ≫= parentWrites_node (Some node))
  end.

Definition parentWrites (parent : option Node) (nodes : list Node)
    : list (jsstring * jsstring) :=
  nodes ≫= parentWrites_node parent.

(** The [nodeMap.set] calls of [buildMaps], in the order they are made. *)
Definition nodeWrites (nodes : list Node) : list (jsstring * Node) :=
  (λ n, (id n, n)) <$> flatten nodes.

(** [map.set(key, value)] on a pair. *)
Definition write {V : Type} (m : gmap jsstring V) (kv : jsstring * V)
    : gmap jsstring V :=
  <[kv.1 := kv.2]> m.

(** [q] is reached from [k] by one or more steps of [parents]. *)
Inductive climbs (parents : gmap jsstring jsstring) : jsstring → jsstring → Prop :=
  | climbs_once (k q : jsstring) :
      parents !! k = Some q → climbs parents k q
  | climbs_further (k q r : jsstring) :
      parents !! k = Some q → climbs parents q r → climbs parents k r.

Definition acyclic (parents : gmap jsstring jsstring) : Prop :=
  ∀ k, ¬ climbs parents k k.

(** ** The page: reading the rendered tree *)

(** The flags of the element at [path]. *)
Definition attrs_at (path : address) (els : list Element) : option TreeNodeEl :=
  el <$> elem_at path els.

(** [els] is the tree [renderTree] built for [treeData], whatever classes
    have been toggled since: an element at every address of a node and
    nowhere else, carrying the node's id and its depth below the top. *)
Definition renders (treeData : list Node) (els : list Element) : Prop :=
  ∀ path,
    match node_at path treeData, attrs_at path els with
    | Some n, Some a => data_id a = id n ∧ data_level a = pred (length path)
    | None, None => True
    | _, _ => False
    end.

(** A page showing [treeData]: the indices are the ones [buildMaps] built
    and the tree is the one [renderTree] built. *)
Definition displays (treeData : list Node) (page : Page) : Prop :=
  maps page = maps (load treeData) ∧ renders treeData (treeContainer page).

(** ** The page: tree controls *)

Definition setTree (els : list Element) (page : Page) : Page :=
  {| maps := maps page; selectedNode := selectedNode page;
     treeContainer := els; detailView := detailView page |}.

(** The click handler of [#expandAll]. *)
Definition expandAll (page : Page) : Page :=
  setTree (forEachTreeNode (toggleNode (Some true)) (treeContainer page)) page.

(** The click handler of [#collapseAll]. *)
Definition collapseAll (page : Page) : Page :=
  setTree (forEachTreeNode (toggleNode (Some false)) (treeContainer page)) page.

(** The click handlers of [#expandLevel1] ([bound = 1]) and
    [#expandLevel2] ([bound = 2]): [toggleNode(n, parseInt(n.dataset.level)
    < bound)]. *)
Definition expandLevel (bound : nat) (page : Page) : Page :=
  setTree (forEachTreeNode
             (λ a, toggleNode (Some (bool_decide (data_level a < bound))) a)
             (treeContainer page)) page.

(** The click handler of a [.tree-toggle]: [toggleNode(nodeEl)] on the
    element at [path]. *)
Definition clickToggle (path : address) (page : Page) : Page :=
  setTree (update_at path (toggleNode None) (treeContainer page)) page.

(** [p] is the address of a proper ancestor of the node at [path]. *)
Definition above (p path : address) : Prop :=
  p ≠ [] ∧ p `prefix_of` path ∧ p ≠ path.

#[global] Instance above_dec (p path : address) : Decision (above p path).
Proof. unfold above. apply _. Defined.

(** The depth of the deepest node: the number of turns the parent loops
    need at most, plus one. *)
Fixpoint depthBelow (node : Node) : nat :=
  match node with
  | MkNode _ _ _ _ ch => S (foldr (λ child h, depthBelow child `max` h) 0 ch)
  end.

Definition forestDepth (nodes : list Node) : nat :=
  foldr (λ node h, depthBelow node `max` h) 0 nodes.

Section SearchBookkeeping.
Variable toLowerCase : jsstring → jsstring.

(** What the second loop of [search] does to an element whose id is
    registered: the callback [markNode] without its exception. *)
Definition markRegistered (nodes : gmap jsstring Node) (lowerTerm : jsstring)
    (matchingIds : gset jsstring) (a : TreeNodeEl) : TreeNodeEl :=
  if decide (data_id a ∈ matchingIds)
  then
    match nodes !! data_id a with
    | Some node =>
        if matchesTerm toLowerCase lowerTerm node
        then toggleNode (Some true) (set_search (search_hidden a) true a)
        else a
    | None => a
    end
  else set_search true (search_match a) a.
End SearchBookkeeping.

(** ** The page: events *)

(** The arrow of every toggle points the way the [expanded] class of its
    node says. *)
Definition in_step (els : list Element) : Prop :=
  ∀ p a, attrs_at p els = Some a → toggle_expanded a = expanded a.

(** At most one element is marked selected, and it carries the id recorded
    in [selectedNode]. *)
Definition selection_consistent (page : Page) : Prop :=
  (∀ p a, attrs_at p (treeContainer page) = Some a → selected a = true →
          selectedNode page = Some (data_id a)) ∧
  (∀ p q a b, attrs_at p (treeContainer page) = Some a →
              attrs_at q (treeContainer page) = Some b →
              selected a = true → selected b = true → p = q).

Section Events.
Variable toLowerCase : jsstring → jsstring.

(** What the user can do to the page: click a node or a breadcrumb entry
    ([selectNode]), click a toggle, type in the search box (the debounced
    call of [search]), press Escape ([search('')]), press one of the four
    buttons above the tree. *)
Inductive Event : Type :=
  | ClickNode (nodeId : jsstring)
  | ClickToggle (path : address)
  | TypeSearch (term : jsstring)
  | PressEscape
  | ClickExpandAll
  | ClickCollapseAll
  | ClickExpandLevel1
  | ClickExpandLevel2.

Definition handle (fuel : nat) (event : Event) (page : Page) : Outcome Page :=
  match event with
  | ClickNode nodeId => selectNode fuel nodeId page
  | ClickToggle path => Return (clickToggle path page)
  | TypeSearch term => search toLowerCase fuel term page
  | PressEscape => search toLowerCase fuel [] page
  | ClickExpandAll => Return (expandAll page)
  | ClickCollapseAll => Return (collapseAll page)
  | ClickExpandLevel1 => Return (expandLevel 1 page)
  | ClickExpandLevel2 => Return (expandLevel 2 page)
  end.

(** The events of a session, handled in turn. *)
Definition session (fuel : nat) (events : list Event) (page : Page) : Outcome Page :=
  foldl (λ acc event, p ← acc; handle fuel event p) (Return page) events.
End Events.

(** [els'] has an element exactly where [els] has one, and the flags of
    the two are related by [R]. *)
Definition related_by (R : TreeNodeEl → TreeNodeEl → Prop)
    (els els' : list Element) : Prop :=
  ∀ p,
    match attrs_at p els, attrs_at p els' with
    | Some a, Some a' => R a a'
    | None, None => True
    | _, _ => False
    end.

(** A change of flags that leaves the id, the level and the selected mark
    alone and does not put a toggle out of step. *)
Definition harmless (a a' : TreeNodeEl) : Prop :=
  data_id a' = data_id a ∧ data_level a' = data_level a ∧
  selected a' = selected a ∧
  (toggle_expanded a = expanded a → toggle_expanded a' = expanded a').

(** The state a session keeps to: the indices and the shape of the tree
    are those built at load time, toggles are in step with their nodes and
    the selection is consistent. *)
Definition consistent (treeData : list Node) (page : Page) : Prop :=
  displays treeData page ∧ in_step (treeContainer page) ∧
  selection_consistent page.

(** A short session on the sample forest: select [A1a], search for
    ["a2"], press Escape, press "level 1". *)
Definition sampleSession : list Event :=
  [ClickNode (str "A1a"); TypeSearch (str "a2"); PressEscape; ClickExpandLevel1].


(** ** The page: theme and search box *)

(** What [setTheme] writes: [document.body.dataset.theme], the [active]
    class of the two buttons and the [localStorage] entries. *)
Record ThemeState : Type := MkThemeState {
  body_theme : option jsstring;
  lightBtn_active : bool;
  darkBtn_active : bool;
  localStorage : gmap jsstring jsstring
}.

Definition setTheme (theme : jsstring) (ui : ThemeState) : ThemeState :=
  {| body_theme := Some theme;
     lightBtn_active := bool_decide (theme ≠ str "dark");
     darkBtn_active := bool_decide (theme = str "dark");
     localStorage := <[str "theme" := theme]> (localStorage ui) |}.

(** [localStorage.getItem('theme') || 'light'] *)
Definition savedTheme (ui : ThemeState) : jsstring :=
  match localStorage ui !! str "theme" with
  | Some [] | None => str "light"
  | Some theme => theme
  end.

(** The two lines under [// Init]. *)
Definition initTheme (ui : ThemeState) : ThemeState := setTheme (savedTheme ui) ui.

(** Timers of the host: the handles alive and the number handed out so
    far; a new handle is a positive integer never handed out before. *)
Record Timers : Type := MkTimers {
  alive : gset nat;
  handed_out : nat
}.

Definition setTimer (t : Timers) : nat * Timers :=
  (S (handed_out t), MkTimers ({[S (handed_out t)]} ∪ alive t) (S (handed_out t))).

(** [clearTimeout(h)] and [clearInterval(h)]; [undefined] clears nothing. *)
Definition clearTimer (h : option nat) (t : Timers) : Timers :=
  match h with
  | Some handle => MkTimers (alive t ∖ {[handle]}) (handed_out t)
  | None => t
  end.

(** The search box: its text, the variable [searchTimeout], the timers,
    and the terms [search] has been called with, oldest first. *)
Record SearchBox : Type := MkSearchBox {
  input_value : jsstring;
  searchTimeout : option nat;
  box_timers : Timers;
  searched : list jsstring
}.

(** The [input] listener, after the user has made the text [text]. *)
Definition onInput (text : jsstring) (box : SearchBox) : SearchBox :=
  let timers := clearTimer (searchTimeout box) (box_timers box) in
  let '(handle, timers) := setTimer timers in
  {| input_value := text; searchTimeout := Some handle;
     box_timers := timers; searched := searched box |}.

(** The timer [handle] comes due: if it is still alive its callback
    [() => search(searchInput.value)] runs. *)
Definition onTimeout (handle : nat) (box : SearchBox) : SearchBox :=
  if decide (handle ∈ alive (box_timers box))
  then {| input_value := input_value box; searchTimeout := searchTimeout box;
          box_timers := MkTimers (alive (box_timers box) ∖ {[handle]})
                                 (handed_out (box_timers box));
          searched := searched box ++ [input_value box] |}
  else box.

(** ** The marketing page *)

(** The classes [goToSlide] handles on [.hero-carousel-controls]:
    [dark-theme] and the [slide-k-bg] present. *)
Record Controls : Type := MkControls {
  dark_theme : bool;
  slide_bg : gset Z
}.

(** The hero carousel: the [active] class of each slide and of each
    indicator, the controls if the page has them, and [currentSlide]. *)
Record Carousel : Type := MkCarousel {
  slides : list bool;
  indicators : list bool;
  controls : option Controls;
  currentSlide : Z
}.

Definition darkSlides : list Z := [1; 2]%Z.

Definition goToSlide (index : Z) (c : Carousel) : Carousel :=
  let index :=
    if (index <? 0)%Z then (Z.of_nat (length (slides c)) - 1)%Z else index in
  let index :=
    if (index >=? Z.of_nat (length (slides c)))%Z then 0%Z else index in
  {| slides := imap (λ i _, bool_decide (Z.of_nat i = index)) (slides c);
     indicators := imap (λ i _, bool_decide (Z.of_nat i = index)) (indicators c);
     controls :=
       (λ k, {| dark_theme := bool_decide (index ∈ darkSlides);
                slide_bg := {[index]} ∪ (slide_bg k ∖ {[0; 1; 2]}%Z) |})
         <$> controls c;
     currentSlide := index |}.

Definition nextSlide (c : Carousel) : Carousel := goToSlide (currentSlide c + 1) c.
Definition prevSlide (c : Carousel) : Carousel := goToSlide (currentSlide c - 1) c.

(** The carousel with its autoplay: the variable [autoplayInterval] and
    the intervals of the host. *)
Record Hero : Type := MkHero {
  carousel : Carousel;
  autoplayInterval : option nat;
  hero_timers : Timers
}.

Definition stopAutoplay (h : Hero) : Hero :=
  {| carousel := carousel h; autoplayInterval := autoplayInterval h;
     hero_timers := clearTimer (autoplayInterval h) (hero_timers h) |}.

Definition startAutoplay (h : Hero) : Hero :=
  let stopped := stopAutoplay h in
  let '(handle, timers) := setTimer (hero_timers stopped) in
  {| carousel := carousel stopped; autoplayInterval := Some handle;
     hero_timers := timers |}.

Definition slide (f : Carousel → Carousel) (h : Hero) : Hero :=
  {| carousel := f (carousel h); autoplayInterval := autoplayInterval h;
     hero_timers := hero_timers h |}.

Inductive HeroEvent : Type :=
  | ClickPrev
  | ClickNext
  | ClickIndicator (i : nat)
  | MouseEnter
  | MouseLeave
  | KeyArrowLeft
  | KeyArrowRight
  | IntervalDue (handle : nat).

Definition heroHandle (event : HeroEvent) (h : Hero) : Hero :=
  match event with
  | ClickPrev | KeyArrowLeft => startAutoplay (slide prevSlide h)
  | ClickNext | KeyArrowRight => startAutoplay (slide nextSlide h)
  | ClickIndicator i => startAutoplay (slide (goToSlide (Z.of_nat i)) h)
  | MouseEnter => stopAutoplay h
  | MouseLeave => startAutoplay h
  | IntervalDue handle =>
      if decide (handle ∈ alive (hero_timers h)) then slide nextSlide h else h
  end.

(** The carousel once the page script has run: [currentSlide = 0], no
    interval yet, then [startAutoplay()]. *)
Definition heroLoad (slideClasses indicatorClasses : list bool)
    (k : option Controls) : Hero :=
  startAutoplay
    {| carousel := MkCarousel slideClasses indicatorClasses k 0;
       autoplayInterval := None;
       hero_timers := MkTimers ∅ 0 |}.

(** The FAQ accordion: the [active] class of each [.faq-item]; a click on
    the question of item [i]. *)
Definition clickQuestion (i : nat) (items : list bool) : list bool :=
  imap (λ j active, if decide (j = i) then negb active else false) items.

(** A regular expression over code units, as far as [emailRegex] needs. *)
Inductive Regex : Type :=
  | RNone
  | REmpty
  | RClass (member : N → bool)
  | RAlt (r1 r2 : Regex)
  | RCat (r1 r2 : Regex)
  | RStar (r : Regex).

Definition RPlus (r : Regex) : Regex := RCat r (RStar r).

Fixpoint nullable (r : Regex) : bool :=
  match r with
  | RNone | RClass _ => false
  | REmpty | RStar _ => true
  | RAlt r1 r2 => nullable r1 || nullable r2
  | RCat r1 r2 => nullable r1 && nullable r2
  end.

(** What is left of [r] to match after the code unit [c]. *)
Fixpoint derive (c : N) (r : Regex) : Regex :=
  match r with
  | RNone | REmpty => RNone
  | RClass member => if member c then REmpty else RNone
  | RAlt r1 r2 => RAlt (derive c r1) (derive c r2)
  | RCat r1 r2 =>
      if nullable r1
      then RAlt (RCat (derive c r1) r2) (derive c r2)
      else RCat (derive c r1) r2
  | RStar r1 => RCat (derive c r1) (RStar r1)
  end.

(** [/^r$/.test(s)] *)
Definition test (r : Regex) (s : jsstring) : bool :=
  nullable (foldl (λ r c, derive c r) r s).

Definition at_sign : N := 64%N.
Definition full_stop : N := 46%N.

(** [[^\s@]] *)
Definition notSpaceNorAt (c : N) : bool := negb (isWhiteSpace c || (c =? at_sign)%N).

(** [/^[^\s@]+@[^\s@]+\.[^\s@]+$/] *)
Definition emailRegex : Regex :=
  RCat (RPlus (RClass notSpaceNorAt))
    (RCat (RClass (λ c, (c =? at_sign)%N))
       (RCat (RPlus (RClass notSpaceNorAt))
          (RCat (RClass (λ c, (c =? full_stop)%N))
             (RPlus (RClass notSpaceNorAt))))).

Definition isValidEmail (email : jsstring) : bool := test emailRegex email.

(** The strings a regular expression stands for. *)
Inductive Matches : Regex → jsstring → Prop :=
  | matches_empty : Matches REmpty []
  | matches_class (member : N → bool) (c : N) :
      member c = true → Matches (RClass member) [c]
  | matches_alt_l (r1 r2 : Regex) (s : jsstring) :
      Matches r1 s → Matches (RAlt r1 r2) s
  | matches_alt_r (r1 r2 : Regex) (s : jsstring) :
      Matches r2 s → Matches (RAlt r1 r2) s
  | matches_cat (r1 r2 : Regex) (s1 s2 : jsstring) :
      Matches r1 s1 → Matches r2 s2 → Matches (RCat r1 r2) (s1 ++ s2)
  | matches_star_nil (r : Regex) : Matches (RStar r) []
  | matches_star_more (r : Regex) (s1 s2 : jsstring) :
      Matches r s1 → Matches (RStar r) s2 → Matches (RStar r) (s1 ++ s2).

(** The only timer that may be alive is the one the variable holds. *)
Definition only_current (current : option nat) (t : Timers) : Prop :=
  ∀ h, h ∈ alive t → current = Some h.

(** * Proofs *)

(** ** Outcomes *)

Lemma bind_Return {A B} (m : Outcome A) (f : A → Outcome B) (b : B) :
  m ≫= f = Return b ↔ ∃ a, m = Return a ∧ f a = Return b.
Proof.
  destruct m as [a| |]; simpl; split.
  - intros. by exists a.
  - by intros (a' & [= <-] & ?).
  - done.
  - by intros (? & ? & ?).
  - done.
  - by intros (? & ? & ?).
Qed.

Lemma get_Return (v field : Value) (key : jsstring) :
  get v key = Return field ↔ field = property v key ∧ v ≠ Null ∧ v ≠ Undefined.
Proof. destruct v; simpl; naive_solver. Qed.

Lemma mapM_Outcome_cons {A B} (f : A → Outcome B) (x : A) (l : list A) :
  mapM f (x :: l) = y ← f x; ys ← mapM f l; Return (y :: ys).
Proof. reflexivity. Qed.


Lemma mapM_Outcome_Return {A B} (f : A → Outcome B) (l : list A) :
  (∀ x, x ∈ l → ∃ y, f x = Return y) →
  ∃ ys, mapM f l = Return ys ∧ length ys = length l.
Proof.
  induction l as [|x l IH]; intros Hf; [by exists []|].
  destruct (Hf x) as [y Hy]; [left|].
  destruct IH as (ys & Hys & Hlen); [intros; apply Hf; by right|].
  exists (y :: ys). rewrite mapM_Outcome_cons, Hy, Hys. simpl. by rewrite Hlen.
Qed.

Lemma mapM_Outcome_Throw {A B} (f : A → Outcome B) (l : list A) (e : Exn) :
  mapM f l = Throw e → ∃ x, x ∈ l ∧ f x = Throw e.
Proof.
  induction l as [|x l IH]; [done|].
  rewrite mapM_Outcome_cons. destruct (f x) as [y|e'|] eqn:Hx; simpl; [|intros [= ->]|done].
  - destruct (mapM f l) as [ys|e'|]; simpl; [done| |done].
    intros [= ->]. destruct IH as (x' & ? & ?); [done|]. exists x'. split; [by right|done].
  - exists x. split; [left|done].
Qed.

Lemma mapM_Outcome_OutOfFuel {A B} (f : A → Outcome B) (l : list A) :
  mapM f l = OutOfFuel → ∃ x, x ∈ l ∧ f x = OutOfFuel.
Proof.
  induction l as [|x l IH]; [done|].
  rewrite mapM_Outcome_cons. destruct (f x) as [y|e'|] eqn:Hx; simpl; [|done|].
  - destruct (mapM f l) as [ys|e'|]; simpl; [done|done|].
    intros _. destruct IH as (x' & ? & ?); [done|]. exists x'. split; [by right|done].
  - exists x. split; [left|done].
Qed.

(** ** Transform stage *)

Lemma height_elem (x : Value) (l : list Value) :
  x ∈ l → S (height x) ≤ height (Arr l).
Proof.
  induction 1 as [x l|x y l _ IH]; simpl in *; lia.
Qed.

Lemma height_assoc (key : jsstring) (fields : list (jsstring * Value)) :
  height (assoc key fields) ≤ pred (height (Obj fields)).
Proof.
  induction fields as [|[k v] fields IH]; simpl in *; [lia|].
  case_decide; lia.
Qed.

Lemma height_property (v : Value) (key : jsstring) :
  height (property v key) ≤ pred (height v).
Proof.
  destruct v as [| | | |s|l|fields]; simpl; try lia.
  - case_decide; [destruct s|]; simpl; lia.
  - case_decide; [destruct l|]; simpl; lia.
  - apply height_assoc.
Qed.

Lemma height_get_opt (v : Value) (key : jsstring) :
  height (get_opt v key) ≤ pred (height v).
Proof.
  pose proof (height_property v key). destruct v; simpl in *; lia.
Qed.

Lemma height_childItems (item children : Value) :
  childItems item = Return children → height children ≤ pred (height item).
Proof.
  unfold childItems. intros (field & Hget & [= <-])%bind_Return.
  assert (height field ≤ pred (height item)) as Hfield.
  { apply get_Return in Hget as (-> & _). apply height_property. }
  unfold or_else. case_match; [|simpl; lia].
  pose proof (height_get_opt (first_opt field) (str "Item")).
  pose proof (height_get_opt field (str "0")). unfold first_opt in *. lia.
Qed.






Lemma get_Throw (v : Value) (key : jsstring) (e : Exn) :
  get v key = Throw e → e = TypeError.
Proof. destruct v; simpl; congruence. Qed.

Lemma field_or_empty_Throw (item : Value) (key : jsstring) (e : Exn) :
  field_or_empty item key = Throw e → e = TypeError.
Proof.
  unfold field_or_empty. destruct (get item key) eqn:Hget; simpl; [done| |done].
  intros [= <-]. by eapply get_Throw.
Qed.

Lemma childItems_Throw (item : Value) (e : Exn) :
  childItems item = Throw e → e = TypeError.
Proof.
  unfold childItems. destruct (get item _) eqn:Hget; simpl; [done| |done].
  intros [= <-]. by eapply get_Throw.
Qed.

Lemma as_string_Throw (v : Value) (e : Exn) :
  as_string v = Throw e → e = TypeError.
Proof. destruct v; simpl; congruence. Qed.

Lemma transformItem_Throw (recur : Value → Outcome (list Node)) (item : Value) (e : Exn) :
  transformItem recur item = Throw e →
  e = TypeError ∨ ∃ children, recur children = Throw e.
Proof.
  unfold transformItem.
  destruct (field_or_empty item (str "ID")) as [i|?|] eqn:Hi; simpl;
    [|intros [= <-]; left; by eapply field_or_empty_Throw|done].
  destruct (field_or_empty item (str "Name")) as [n|?|] eqn:Hn; simpl;
    [|intros [= <-]; left; by eapply field_or_empty_Throw|done].
  destruct (field_or_empty item (str "Description")) as [d|?|] eqn:Hd; simpl;
    [|intros [= <-]; left; by eapply field_or_empty_Throw|done].
  destruct (childItems item) as [c|?|] eqn:Hc; simpl;
    [|intros [= <-]; left; by eapply childItems_Throw|done].
  destruct (as_string i) as [ids|?|] eqn:Hids; simpl;
    [|intros [= <-]; left; by eapply as_string_Throw|done].
  destruct (as_string n) as [names|?|] eqn:Hnames; simpl;
    [|intros [= <-]; left; by eapply as_string_Throw|done].
  destruct (recur c) as [kids|?|] eqn:Hkids; simpl; [done| |done].
  intros [= <-]. right. by exists c.
Qed.

Lemma transformItems_rec_no_structural (fuel : nat) (items : Value) :
  transformItems_rec fuel items ≠ Throw StructuralError.
Proof.
  revert items. induction fuel as [|fuel IH]; intros items Hthrow.
  - destruct items as [| | | | |l|]; try done.
    apply mapM_Outcome_Throw in Hthrow as (? & ? & ?). done.
  - destruct items as [| | | | |l|]; try done.
    apply mapM_Outcome_Throw in Hthrow as (item & _ & Hitem).
    apply transformItem_Throw in Hitem as [?|[children Hrec]]; [done|].
    by apply IH in Hrec.
Qed.

Lemma transformItem_well_formed (recur : Value → Outcome (list Node)) (item : Value) :
  item ≠ Null → item ≠ Undefined →
  is_string (or_else (first_opt (property item (str "ID"))) (Str [])) →
  is_string (or_else (first_opt (property item (str "Name"))) (Str [])) →
  (∃ kids, recur (or_else (get_opt (first_opt (property item (str "Children")))
                                   (str "Item")) (Arr [])) = Return kids) →
  ∃ node, transformItem recur item = Return node.
Proof.
  intros Hnull Hundef [ids Hid] [names Hname] [kids Hkids].
  unfold transformItem, field_or_empty, childItems.
  assert (∀ key, get item key = Return (property item key)) as Hget.
  { intros key. by destruct item. }
  rewrite !Hget. simpl. rewrite Hid, Hname. simpl. rewrite Hkids. by eexists.
Qed.

Lemma transformItems_rec_well_formed (fuel : nat) (items : Value) :
  height items ≤ fuel → WellFormedItems items →
  ∃ nodes, transformItems_rec fuel items = Return nodes.
Proof.
  revert items. induction fuel as [|fuel IH]; intros items Hh Hwf.
  - destruct items as [| | | | |l|]; try by eexists.
    destruct l as [|x l]; [by eexists|]. simpl in Hh. lia.
  - destruct items as [| | | | |l|]; try by eexists.
    inversion Hwf as [? Hno|? Hall]; subst; [by destruct (Hno l)|].
    destruct (mapM_Outcome_Return
      (transformItem (transformItems_rec fuel)) l) as (nodes & Hnodes & _);
      [|by exists nodes].
    intros item Hitem. rewrite Forall_forall in Hall.
    destruct (Hall item Hitem) as [? Hnull Hundef Hid Hname Hkids].
    apply height_elem in Hitem.
    apply transformItem_well_formed; [done..|].
    apply IH; [|done].
    pose proof (height_childItems item _
      ltac:(unfold childItems; destruct item; try done; reflexivity)).
    lia.
Qed.

Lemma mapM_Outcome_Return_inv {A B} (f : A → Outcome B) (l : list A) (ys : list B) :
  mapM f l = Return ys → ∀ x, x ∈ l → ∃ y, f x = Return y.
Proof.
  revert ys. induction l as [|x l IH]; intros ys Hret z Hz; [by inversion Hz|].
  rewrite mapM_Outcome_cons in Hret.
  apply bind_Return in Hret as (y & Hy & (ys' & Hys & _)%bind_Return).
  inversion Hz; subst; [by exists y|]. by eapply IH.
Qed.

Lemma transformItem_Return (recur : Value → Outcome (list Node)) (item : Value)
    (node : Node) :
  transformItem recur item = Return node →
  item ≠ Null ∧ item ≠ Undefined ∧
  ∃ ids names kids,
    or_else (first_opt (property item (str "ID"))) (Str []) = Str ids ∧
    or_else (first_opt (property item (str "Name"))) (Str []) = Str names ∧
    recur (or_else (get_opt (first_opt (property item (str "Children")))
                            (str "Item")) (Arr [])) = Return kids ∧
    node = {| id := replaceSeparators ids;
              id_display := ids;
              name := trim names;
              description :=
                or_else (or_else (first_opt (property item (str "Description")))
                                 (Str []))
                        (Str (names ++ str " classification item."));
              children := kids |}.
Proof.
  unfold transformItem, field_or_empty, childItems.
  intros (i & (fi & (-> & Hnull & Hundef)%get_Return & [= <-])%bind_Return & H)%bind_Return.
  apply bind_Return in H
    as (n & (fn & (-> & _)%get_Return & [= <-])%bind_Return & H).
  apply bind_Return in H
    as (d & (fd & (-> & _)%get_Return & [= <-])%bind_Return & H).
  apply bind_Return in H
    as (c & (fc & (-> & _)%get_Return & [= <-])%bind_Return & H).
  apply bind_Return in H as (ids & Hids & H).
  apply bind_Return in H as (names & Hnames & H).
  apply bind_Return in H as (kids & Hkids & [= <-]).
  split; [done|]. split; [done|]. exists ids, names, kids.
  destruct (or_else (first_opt (property item (str "ID"))) _); try done.
  destruct (or_else (first_opt (property item (str "Name"))) _); try done.
  by simplify_eq/=.
Qed.

Lemma transformItems_rec_Return_well_formed (fuel : nat) (items : Value)
    (nodes : list Node) :
  transformItems_rec fuel items = Return nodes → WellFormedItems items.
Proof.
  revert items nodes. induction fuel as [|fuel IH]; intros items nodes Hret.
  - destruct items as [| | | | |l|]; try (by apply wf_not_an_array).
    destruct l as [|x l]; [by apply wf_array|]. done.
  - destruct items as [| | | | |l|]; try (by apply wf_not_an_array).
    apply wf_array, Forall_forall. intros item Hitem.
    destruct (mapM_Outcome_Return_inv _ _ _ Hret item Hitem) as [node Hnode].
    apply transformItem_Return in Hnode
      as (? & ? & ids & names & kids & Hid & Hname & Hkids & _).
    apply wf_item; [done|done|by exists ids|by exists names|by eapply IH].
Qed.

(** C7 (amended): the id of the node produced for an item is the source ID
    with each white-space or hyphen code unit replaced by one underscore,
    position by position, so a run of k of them leaves k underscores and
    the length is kept; [id_display] is the source ID itself. *)
Theorem transformItem_id_replaces_each_separator
    (recur : Value → Outcome (list Node)) (item : Value) (node : Node) :
  transformItem recur item = Return node →
  ∃ raw, field_or_empty item (str "ID") = Return (Str raw) ∧
         id_display node = raw ∧
         id node = replaceSeparators raw ∧
         length (id node) = length raw ∧
         ∀ i c, raw !! i = Some c →
                id node !! i = Some (if isSeparator c then underscore else c).
Proof.
  intros (Hnull & Hundef & ids & names & kids & Hid & _ & _ & ->)%transformItem_Return.
  exists ids. simpl. split_and!.
  - unfold field_or_empty. destruct item; try done; simpl in *; by rewrite Hid.
  - done.
  - done.
  - unfold replaceSeparators. by rewrite length_fmap.
  - intros i c Hc. unfold replaceSeparators. by rewrite list_lookup_fmap, Hc.
Qed.

Lemma transformItem_id_replaces_each_separator_witness :
  let item := Obj [(str "ID", Arr [Str (str "Ss 25-10")])] in
  let node := {| id := str "Ss_25_10"; id_display := str "Ss 25-10"; name := [];
                 description := Str (str " classification item.");
                 children := [] |} in
  transformItem transformItems item = Return node ∧
  ∃ raw, field_or_empty item (str "ID") = Return (Str raw) ∧
         id_display node = raw ∧
         id node = replaceSeparators raw ∧
         length (id node) = length raw ∧
         ∀ i c, raw !! i = Some c →
                id node !! i = Some (if isSeparator c then underscore else c).
Proof.
  intros item node.
  assert (transformItem transformItems item = Return node) as Hrun
    by (vm_compute; reflexivity).
  split; [exact Hrun|].
  exact (transformItem_id_replaces_each_separator transformItems item node Hrun).
Defined.

(** C7 (as stated, refuted): the run [" - "] of the source ID ["A - B"]
    leaves three underscores, where collapsing it would leave one. *)
Lemma transform_id_run_not_collapsed :
  ∃ node,
    transformItems (Arr [Obj [(str "ID", Arr [Str (str "A - B")])]]) = Return [node] ∧
    id_display node = str "A - B" ∧
    id node = str "A___B" ∧
    collapseSeparators (id_display node) = str "A_B" ∧
    id node ≠ collapseSeparators (id_display node).
Proof.
  eexists. split; [vm_compute; reflexivity|]. by vm_compute.
Qed.

(** C6 (amended): on a source record that is not itself [null], the
    structural error is raised exactly when no truthy value sits at
    [BuildingInformation.Classification[0].System[0]]; when one does, the
    transform succeeds exactly when the items are well formed (no [null]
    item, and an [ID] or [Name] that is supplied is a string), a missing
    [Items] container giving the empty forest; and an absent [ID], [Name],
    [Description] or [Children] of an item is replaced by its default. *)
Theorem transformData_structural_error_and_defaults (sourceData system : Value) :
  locateSystem sourceData = Return system →
  (transformData sourceData = Throw StructuralError ↔ truthy system = false) ∧
  (truthy system = true →
     ((∃ info forest, transformData sourceData = Return (info, forest))
        ↔ WellFormedItems (systemItems system)) ∧
     (property system (str "Items") = Undefined →
        ∃ info, transformData sourceData = Return (info, []))) ∧
  (∀ item node,
     transformItem transformItems item = Return node →
     (property item (str "ID") = Undefined → id node = [] ∧ id_display node = []) ∧
     (property item (str "Name") = Undefined → name node = []) ∧
     (property item (str "Description") = Undefined →
        ∃ names, or_else (first_opt (property item (str "Name"))) (Str []) = Str names ∧
                 description node = Str (names ++ str " classification item.")) ∧
     (property item (str "Children") = Undefined → children node = [])).
Proof.
  intros Hsys. unfold transformData. rewrite Hsys. simpl.
  split_and!.
  - destruct (truthy system); simpl; [|done]. split; [|done].
    destruct (transformItems _) eqn:Hitems; simpl; [done| |done].
    intros [= ->]. by apply transformItems_rec_no_structural in Hitems.
  - intros ->. simpl. split.
    + split.
      * intros (info & forest & Hret).
        destruct (transformItems (systemItems system)) as [nodes| |] eqn:Hitems;
          [|done..].
        by eapply transformItems_rec_Return_well_formed.
      * intros Hwf.
        destruct (transformItems_rec_well_formed _ (systemItems system)
                    (le_n _) Hwf) as [nodes Hnodes].
        unfold transformItems. rewrite Hnodes. simpl. by eexists _, _.
    + intros Hitems. unfold systemItems. rewrite Hitems. simpl. by eexists.
  - intros item node
      (_ & _ & ids & names & kids & Hid & Hname & Hkids & ->)%transformItem_Return.
    simpl. split_and!.
    + intros Hmiss. rewrite Hmiss in Hid. by injection Hid as <-.
    + intros Hmiss. rewrite Hmiss in Hname. by injection Hname as <-.
    + intros Hmiss. exists names. by rewrite Hmiss.
    + intros Hmiss. rewrite Hmiss in Hkids. by injection Hkids as <-.
Qed.

Lemma transformData_structural_error_and_defaults_witness :
  let system := systemWith [Obj []; Obj [(str "ID", Arr [Str (str "Ss 25-10")])]] in
  let source := sourceRecord system in
  locateSystem source = Return system ∧
  truthy system = true ∧
  WellFormedItems (systemItems system) ∧
  transformData source ≠ Throw StructuralError ∧
  (∃ info forest, transformData source = Return (info, forest)) ∧
  transformItem transformItems (Obj []) =
    Return {| id := []; id_display := []; name := [];
              description := Str (str " classification item."); children := [] |}.
Proof.
  intros system source.
  assert (locateSystem source = Return system) as Hlocate by reflexivity.
  assert (truthy system = true) as Htruthy by reflexivity.
  assert (WellFormedItems (systemItems system)) as Hwf.
  { apply wf_array. apply Forall_cons_2; [|apply Forall_cons_2; [|apply Forall_nil_2]].
    all: apply wf_item; [done|done|by eexists|by eexists|].
    all: apply wf_array, Forall_nil_2. }
  destruct (transformData_structural_error_and_defaults source system Hlocate)
    as (Herror & Hsuccess & _).
  destruct (Hsuccess Htruthy) as [Hiff _].
  split_and!; [done|done|done| |by apply Hiff|by vm_compute].
  intros Hthrow. apply Herror in Hthrow. congruence.
Defined.

(** C6 (as stated, refuted): with the system and its items in place, an
    item whose [ID] is a number makes [id.replace] fail with a TypeError;
    and a source that is [null] fails with a TypeError at the first
    property read rather than with the structural error. *)
Lemma transformData_present_container_throws :
  let system := systemWith [Obj [(str "ID", Arr [Num 5])]] in
  (locateSystem (sourceRecord system) = Return system ∧
   truthy system = true ∧
   transformData (sourceRecord system) = Throw TypeError) ∧
  transformData Null = Throw TypeError.
Proof. by vm_compute. Qed.

(** ** Forests *)

Lemma Node_forest_ind (P : Node → Prop) (Q : list Node → Prop) :
  Q [] →
  (∀ node rest, P node → Q rest → Q (node :: rest)) →
  (∀ i d nm ds ch, Q ch → P (MkNode i d nm ds ch)) →
  (∀ node, P node) ∧ (∀ nodes, Q nodes).
Proof.
  intros Hnil Hcons Hnode.
  assert (∀ node, P node) as HP.
  { fix IH 1. intros [i d nm ds ch]. apply Hnode.
    induction ch as [|c ch IHch]; [exact Hnil|].
    apply Hcons; [apply IH|exact IHch]. }
  split; [exact HP|]. intros nodes. induction nodes; auto.
Qed.

Lemma forest_ind (Q : list Node → Prop) :
  Q [] →
  (∀ node rest, Q (children node) → Q rest → Q (node :: rest)) →
  ∀ nodes, Q nodes.
Proof.
  intros Hnil Hcons.
  apply (Node_forest_ind (λ node, Q (children node)) Q); auto.
Qed.

Lemma subtree_unfold (node : Node) :
  subtree node = node :: flatten (children node).
Proof. by destruct node. Qed.

Lemma flatten_cons (node : Node) (rest : list Node) :
  flatten (node :: rest) = node :: flatten (children node) ++ flatten rest.
Proof. unfold flatten at 1. simpl. by rewrite subtree_unfold. Qed.

Lemma node_at_cons_0 (rest : address) (node : Node) (nodes : list Node) :
  node_at (0 :: rest) (node :: nodes) =
    match rest with [] => Some node | _ => node_at rest (children node) end.
Proof. reflexivity. Qed.

Lemma node_at_cons_S (i : nat) (rest : address) (node : Node) (nodes : list Node) :
  node_at (S i :: rest) (node :: nodes) = node_at (i :: rest) nodes.
Proof. reflexivity. Qed.

Lemma node_at_singleton (i : nat) (nodes : list Node) :
  node_at [i] nodes = nodes !! i.
Proof. simpl. by destruct (nodes !! i). Qed.

Lemma node_at_cons_cons (i j : nat) (rest : address) (nodes : list Node) :
  node_at (i :: j :: rest) nodes =
    node ← nodes !! i; node_at (j :: rest) (children node).
Proof. reflexivity. Qed.

Lemma elem_of_subtree_self (node : Node) : node ∈ subtree node.
Proof. rewrite subtree_unfold. left. Qed.

Lemma elem_of_flatten_root (node : Node) (nodes : list Node) :
  node ∈ nodes → node ∈ flatten nodes.
Proof.
  intros Hin. unfold flatten. apply list_elem_of_bind.
  exists node. split; [apply elem_of_subtree_self|done].
Qed.

Lemma elem_of_flatten_children (n node : Node) (nodes : list Node) :
  node ∈ nodes → n ∈ flatten (children node) → n ∈ flatten nodes.
Proof.
  intros Hin Hn. unfold flatten at 1. apply list_elem_of_bind.
  exists node. split; [|done]. rewrite subtree_unfold. by right.
Qed.

Lemma node_at_flatten (path : address) (nodes : list Node) (n : Node) :
  node_at path nodes = Some n → n ∈ flatten nodes.
Proof.
  revert nodes. induction path as [|i rest IH]; intros nodes; [done|].
  destruct rest as [|j rest].
  - rewrite node_at_singleton. intros Hi.
    by eapply elem_of_flatten_root, list_elem_of_lookup_2.
  - rewrite node_at_cons_cons. destruct (nodes !! i) as [node|] eqn:Hi; [|done].
    simpl. intros Hn. eapply elem_of_flatten_children.
    + by eapply list_elem_of_lookup_2.
    + by apply IH.
Qed.

Lemma flatten_node_at (nodes : list Node) (n : Node) :
  n ∈ flatten nodes → ∃ path, node_at path nodes = Some n.
Proof.
  revert n. induction nodes as [|node rest IHch IHrest] using forest_ind;
    intros n; [by intros ?%elem_of_nil|].
  rewrite flatten_cons.
  intros [->|[Hin|Hin]%elem_of_app]%elem_of_cons.
  - by exists [0].
  - destruct (IHch _ Hin) as [path Hpath]. exists (0 :: path).
    rewrite node_at_cons_0. by destruct path.
  - destruct (IHrest _ Hin) as [path Hpath].
    destruct path as [|i path]; [done|]. by exists (S i :: path).
Qed.

Lemma node_at_snoc_parent (path : address) (i : nat) (nodes : list Node) (n : Node) :
  path ≠ [] → node_at (path ++ [i]) nodes = Some n →
  ∃ parent, node_at path nodes = Some parent ∧ children parent !! i = Some n.
Proof.
  revert nodes. induction path as [|j rest IH]; intros nodes Hne; [done|].
  destruct rest as [|k rest].
  - simpl. destruct (nodes !! j) as [node|]; [|done]. simpl.
    destruct (children node !! i) eqn:Hi; [|done]. intros [= <-]. by exists node.
  - change ((j :: k :: rest) ++ [i]) with (j :: (k :: rest) ++ [i]).
    change ((k :: rest) ++ [i]) with (k :: rest ++ [i]) at 1.
    rewrite !node_at_cons_cons.
    destruct (nodes !! j) as [node|]; [|done]. simpl. by apply IH.
Qed.

Lemma node_at_snoc (path : address) (i : nat) (nodes : list Node) (parent : Node) :
  node_at path nodes = Some parent →
  node_at (path ++ [i]) nodes = children parent !! i.
Proof.
  revert nodes. induction path as [|j rest IH]; intros nodes; [done|].
  destruct rest as [|k rest].
  - rewrite node_at_singleton. intros Hj. simpl. rewrite Hj. simpl.
    by destruct (children parent !! i).
  - change ((j :: k :: rest) ++ [i]) with (j :: k :: rest ++ [i]).
    rewrite !node_at_cons_cons.
    destruct (nodes !! j) as [node|]; [|done]. simpl. apply IH.
Qed.

Lemma node_at_app_prefix (p q : address) (nodes : list Node) (n : Node) :
  p ≠ [] → node_at (p ++ q) nodes = Some n → is_Some (node_at p nodes).
Proof.
  revert p n. induction q as [|i q IH] using rev_ind; intros p n Hp.
  - rewrite app_nil_r. eauto.
  - rewrite app_assoc. intros Hn.
    apply node_at_snoc_parent in Hn as (parent & Hparent & _).
    + by eapply IH.
    + by destruct p.
Qed.

Lemma unique_ids_cons (node : Node) (rest : list Node) :
  unique_ids (node :: rest) →
  unique_ids (children node) ∧ unique_ids rest ∧
  (id node ∉ id <$> flatten (children node)) ∧
  (id node ∉ id <$> flatten rest) ∧
  (∀ k, k ∈ (id <$> flatten (children node)) → k ∉ (id <$> flatten rest)).
Proof.
  unfold unique_ids. rewrite flatten_cons, fmap_cons, fmap_app.
  intros [Hnode [Hch [Hdisj Hrest]]%NoDup_app]%NoDup_cons.
  rewrite elem_of_app in Hnode. naive_solver.
Qed.

Lemma elem_of_flatten_id (n : Node) (nodes : list Node) :
  n ∈ flatten nodes → id n ∈ id <$> flatten nodes.
Proof. intros. by apply list_elem_of_fmap_2. Qed.

(** With pairwise-distinct ids, an id names one address. *)
Lemma unique_ids_address (nodes : list Node) (p q : address) (n m : Node) :
  unique_ids nodes →
  node_at p nodes = Some n → node_at q nodes = Some m → id n = id m → p = q.
Proof.
  revert p q n m.
  induction nodes as [|node rest IHch IHrest] using forest_ind;
    intros p q n m Huniq Hp Hq Hid.
  { by destruct p as [|? []]. }
  apply unique_ids_cons in Huniq as (Hch & Hrest & Hnode_ch & Hnode_rest & Hdisj).
  assert (∀ path x, node_at path (children node) = Some x →
                    id x ∈ id <$> flatten (children node)) as Hin_ch.
  { intros. by eapply elem_of_flatten_id, node_at_flatten. }
  assert (∀ path x, node_at path rest = Some x →
                    id x ∈ id <$> flatten rest) as Hin_rest.
  { intros. by eapply elem_of_flatten_id, node_at_flatten. }
  destruct p as [|[|i] p]; [done| |]; destruct q as [|[|j] q]; try done.
  - rewrite node_at_cons_0 in Hp, Hq.
    destruct p as [|i p], q as [|j q]; simplify_eq.
    + done.
    + destruct Hnode_ch. rewrite Hid. by eapply Hin_ch.
    + destruct Hnode_ch. rewrite <- Hid. by eapply Hin_ch.
    + f_equal. by eapply IHch.
  - rewrite node_at_cons_0 in Hp. rewrite node_at_cons_S in Hq.
    apply Hin_rest in Hq. rewrite <- Hid in Hq.
    destruct p as [|i p]; simplify_eq; [done|].
    by destruct (Hdisj (id n) (Hin_ch _ _ Hp)).
  - rewrite node_at_cons_S in Hp. rewrite node_at_cons_0 in Hq.
    apply Hin_rest in Hp. rewrite Hid in Hp.
    destruct q as [|j q]; simplify_eq; [done|].
    by destruct (Hdisj (id m) (Hin_ch _ _ Hq)).
  - rewrite node_at_cons_S in Hp, Hq.
    assert (i :: p = j :: q) by by eapply IHrest. by simplify_eq.
Qed.

(** ** [countItems] *)

Lemma foldl_add {A} (f : A → nat) (l : list A) (start : nat) :
  foldl (λ count x, count + f x) start l = start + sum_list (f <$> l).
Proof.
  revert start. induction l as [|x l IH]; intros start; simpl; [lia|].
  rewrite IH. change (list_fmap A nat f l) with (f <$> l). lia.
Qed.

Lemma countItems_children_unfold (item : Node) :
  countItems_children item = countItems (children item).
Proof. by destruct item. Qed.

Lemma countItems_cons (item : Node) (rest : list Node) :
  countItems (item :: rest) = 1 + countItems (children item) + countItems rest.
Proof.
  unfold countItems. rewrite !foldl_add, fmap_cons.
  change (sum_list (?x :: ?l)) with (x + sum_list l).
  rewrite countItems_children_unfold. unfold countItems. rewrite foldl_add.
  simpl length. lia.
Qed.

Lemma countItems_flatten (items : list Node) :
  countItems items = length (flatten items).
Proof.
  induction items as [|item rest IHch IHrest] using forest_ind; [done|].
  rewrite countItems_cons, flatten_cons. simpl. rewrite length_app. lia.
Qed.

(** ** [buildMaps] *)

Lemma buildMaps_node_unfold (parent : option Node) (node : Node) (m : Maps) :
  buildMaps_node parent node m =
    buildMaps (children node) (Some node)
      (MkMaps (<[id node := node]> (nodeMap m))
              (match parent with
               | Some p => <[id node := id p]> (parentMap m)
               | None => parentMap m
               end)).
Proof. destruct node, parent; reflexivity. Qed.

Lemma buildMaps_cons (node : Node) (rest : list Node) (parent : option Node)
    (m : Maps) :
  buildMaps (node :: rest) parent m =
    buildMaps rest parent (buildMaps_node parent node m).
Proof. reflexivity. Qed.

Lemma parentWrites_cons (parent : option Node) (node : Node) (rest : list Node) :
  parentWrites parent (node :: rest) =
    match parent with Some p => [(id node, id p)] | None => [] end
    ++ parentWrites (Some node) (children node) ++ parentWrites parent rest.
Proof.
  unfold parentWrites at 1. simpl. destruct node. simpl.
  by rewrite <- app_assoc.
Qed.

Lemma nodeWrites_cons (node : Node) (rest : list Node) :
  nodeWrites (node :: rest) =
    (id node, node) :: nodeWrites (children node) ++ nodeWrites rest.
Proof. unfold nodeWrites. by rewrite flatten_cons, fmap_cons, fmap_app. Qed.

(** [buildMaps] performs the writes listed by [nodeWrites] and
    [parentWrites], in that order. *)
Lemma buildMaps_writes (nodes : list Node) (parent : option Node) (m : Maps) :
  buildMaps nodes parent m =
    MkMaps (foldl write (nodeMap m) (nodeWrites nodes))
           (foldl write (parentMap m) (parentWrites parent nodes)).
Proof.
  revert parent m.
  induction nodes as [|node rest IHch IHrest] using forest_ind; intros parent m.
  { by destruct m. }
  rewrite buildMaps_cons, buildMaps_node_unfold, IHrest, IHch.
  rewrite nodeWrites_cons, parentWrites_cons.
  cbn [nodeMap parentMap]. rewrite !foldl_app. destruct parent.
  all: cbn [foldl app]; rewrite ?foldl_app; reflexivity.
Qed.

Lemma lookup_foldl_write_notin {V} (l : list (jsstring * V)) (m : gmap jsstring V)
    (k : jsstring) :
  k ∉ l.*1 → foldl write m l !! k = m !! k.
Proof.
  revert m. induction l as [|[k' v] l IH]; intros m Hk; [done|].
  rewrite fmap_cons, not_elem_of_cons in Hk. destruct Hk as [Hne Hk].
  simpl. rewrite IH by done. unfold write. simpl. by rewrite lookup_insert_ne.
Qed.

Lemma lookup_foldl_write_in {V} (l : list (jsstring * V)) (m : gmap jsstring V)
    (k : jsstring) (v : V) :
  NoDup l.*1 → (k, v) ∈ l → foldl write m l !! k = Some v.
Proof.
  revert m. induction l as [|[k' v'] l IH]; intros m Hnodup Hin.
  { by apply elem_of_nil in Hin. }
  rewrite fmap_cons in Hnodup. apply NoDup_cons in Hnodup as [Hk' Hnodup].
  apply elem_of_cons in Hin as [[= <- <-]|Hin]; simpl.
  - rewrite lookup_foldl_write_notin by done. unfold write. simpl.
    by rewrite lookup_insert_eq.
  - by apply IH.
Qed.

Lemma lookup_foldl_write_Some {V} (l : list (jsstring * V)) (m : gmap jsstring V)
    (k : jsstring) (v : V) :
  foldl write m l !! k = Some v → (k, v) ∈ l ∨ m !! k = Some v.
Proof.
  revert m. induction l as [|[k' v'] l IH]; intros m; [by right|].
  simpl. intros [Hin|Hm]%IH; [left; by right|].
  unfold write in Hm. simpl in Hm.
  destruct (decide (k' = k)) as [->|Hne].
  - rewrite lookup_insert_eq in Hm. injection Hm as ->. left. left.
  - rewrite lookup_insert_ne in Hm by done. by right.
Qed.

Lemma lookup_foldl_write_is_Some {V} (l : list (jsstring * V))
    (m : gmap jsstring V) (k : jsstring) :
  k ∈ l.*1 ∨ is_Some (m !! k) → is_Some (foldl write m l !! k).
Proof.
  revert m. induction l as [|[k' v'] l IH]; intros m.
  { intros [Hin|?]; [by apply elem_of_nil in Hin|done]. }
  rewrite fmap_cons. simpl. intros [[->|Hin]%elem_of_cons|Hm]; apply IH.
  - right. unfold write. simpl. by rewrite lookup_insert_eq.
  - by left.
  - right. unfold write. simpl. rewrite lookup_insert. by case_decide.
Qed.

Lemma size_foldl_write {V} (l : list (jsstring * V)) (m : gmap jsstring V) :
  NoDup l.*1 → (∀ k, k ∈ l.*1 → m !! k = None) →
  size (foldl write m l) = size m + length l.
Proof.
  revert m. induction l as [|[k v] l IH]; intros m Hnodup Hfresh; simpl; [lia|].
  rewrite fmap_cons in Hnodup, Hfresh. apply NoDup_cons in Hnodup as [Hk Hnodup].
  rewrite IH; [|done|].
  - unfold write. simpl. rewrite map_size_insert_None; [lia|]. apply Hfresh. left.
  - intros k' Hk'. unfold write. simpl. rewrite lookup_insert_ne.
    + apply Hfresh. by right.
    + intros ->. done.
Qed.

Lemma parentWrites_node_unfold (parent : option Node) (node : Node) :
  parentWrites_node parent node =
    match parent with Some p => [(id node, id p)] | None => [] end
    ++ parentWrites (Some node) (children node).
Proof. by destruct node. Qed.

Lemma parentWrites_keys_Some (p : Node) (nodes : list Node) :
  (parentWrites (Some p) nodes).*1 = id <$> flatten nodes.
Proof.
  revert p. induction nodes as [|node rest IHch IHrest] using forest_ind;
    intros p; [done|].
  rewrite parentWrites_cons, flatten_cons. simpl.
  by rewrite !fmap_app, IHch, IHrest.
Qed.

Lemma parentWrites_keys_None (nodes : list Node) :
  (parentWrites None nodes).*1 `sublist_of` id <$> flatten nodes.
Proof.
  induction nodes as [|node rest IHch IHrest] using forest_ind; [done|].
  rewrite parentWrites_cons, flatten_cons. simpl.
  rewrite !fmap_app, parentWrites_keys_Some.
  apply sublist_cons, sublist_app; [done|apply IHrest].
Qed.

Lemma parentWrites_keys_NoDup (nodes : list Node) :
  unique_ids nodes → NoDup (parentWrites None nodes).*1.
Proof. intros Huniq. eapply sublist_NoDup; [exact Huniq|apply parentWrites_keys_None]. Qed.

Lemma nodeWrites_keys (nodes : list Node) :
  (nodeWrites nodes).*1 = id <$> flatten nodes.
Proof. unfold nodeWrites. rewrite <- list_fmap_compose. by apply list_fmap_ext. Qed.

(** A write made by [buildMaps] maps a child to its parent. *)
Lemma elem_of_parentWrites (parent : option Node) (nodes : list Node)
    (k q : jsstring) :
  (k, q) ∈ parentWrites parent nodes →
  (∃ pn i c, parent = Some pn ∧ nodes !! i = Some c ∧ k = id c ∧ q = id pn) ∨
  (∃ path i pn c, node_at path nodes = Some pn ∧ children pn !! i = Some c ∧
                  k = id c ∧ q = id pn).
Proof.
  revert parent.
  induction nodes as [|node rest IHch IHrest] using forest_ind; intros parent.
  { by intros ?%elem_of_nil. }
  rewrite parentWrites_cons.
  intros [Hhead|[Hch|Hrest]%elem_of_app]%elem_of_app.
  - destruct parent as [pn|]; [|by apply elem_of_nil in Hhead].
    apply list_elem_of_singleton in Hhead as [= -> ->].
    left. by exists pn, 0, node.
  - right. destruct (IHch _ Hch) as
      [(pn & i & c & [= <-] & Hi & -> & ->)|(path & i & pn & c & Hpath & Hi & -> & ->)].
    + by exists [0], i, node, c.
    + exists (0 :: path), i, pn, c. rewrite node_at_cons_0. by destruct path.
  - destruct (IHrest _ Hrest) as
      [(pn & i & c & -> & Hi & -> & ->)|(path & i & pn & c & Hpath & Hi & -> & ->)].
    + left. by exists pn, (S i), c.
    + right. destruct path as [|j path]; [done|].
      by exists (S j :: path), i, pn, c.
Qed.

Lemma parentWrites_elem (parent : option Node) (nodes : list Node) (node : Node) :
  node ∈ nodes →
  parentWrites_node parent node ⊆ parentWrites parent nodes.
Proof.
  intros Hin kv Hkv. unfold parentWrites. apply list_elem_of_bind. by exists node.
Qed.

Lemma parentWrites_top (pn : Node) (nodes : list Node) (i : nat) (c : Node) :
  nodes !! i = Some c → (id c, id pn) ∈ parentWrites (Some pn) nodes.
Proof.
  intros Hi. apply (parentWrites_elem _ _ c); [by eapply list_elem_of_lookup_2|].
  rewrite parentWrites_node_unfold. left.
Qed.

Lemma parentWrites_of_path (parent : option Node) (nodes : list Node)
    (path : address) (i : nat) (pn c : Node) :
  node_at path nodes = Some pn → children pn !! i = Some c →
  (id c, id pn) ∈ parentWrites parent nodes.
Proof.
  revert parent nodes. induction path as [|j rest IH]; intros parent nodes; [done|].
  destruct rest as [|k rest].
  - rewrite node_at_singleton. intros Hj Hi.
    apply (parentWrites_elem _ _ pn); [by eapply list_elem_of_lookup_2|].
    rewrite parentWrites_node_unfold. apply elem_of_app. right.
    by eapply parentWrites_top.
  - rewrite node_at_cons_cons. destruct (nodes !! j) as [node|] eqn:Hj; [|done].
    simpl. intros Hpath Hi.
    apply (parentWrites_elem _ _ node); [by eapply list_elem_of_lookup_2|].
    rewrite parentWrites_node_unfold. apply elem_of_app. right. by eapply IH.
Qed.

(** ** The indices of a loaded page *)

Lemma load_nodeMap (treeData : list Node) :
  nodeMap (maps (load treeData)) = foldl write ∅ (nodeWrites treeData).
Proof. unfold load. simpl. by rewrite buildMaps_writes. Qed.

Lemma load_parentMap (treeData : list Node) :
  parentMap (maps (load treeData)) = foldl write ∅ (parentWrites None treeData).
Proof. unfold load. simpl. by rewrite buildMaps_writes. Qed.

(** Every key of [nodeMap] is the id of the node stored under it, a node
    of the forest. *)
Lemma nodeMap_lookup_Some (treeData : list Node) (k : jsstring) (n : Node) :
  nodeMap (maps (load treeData)) !! k = Some n →
  id n = k ∧ ∃ path, node_at path treeData = Some n.
Proof.
  rewrite load_nodeMap. intros [Hin|?]%lookup_foldl_write_Some; [|done].
  unfold nodeWrites in Hin. apply list_elem_of_fmap in Hin as (n' & [= -> ->] & Hin).
  split; [done|]. by apply flatten_node_at.
Qed.

(** Every node of the forest has its id registered. *)
Lemma nodeMap_lookup_is_Some (treeData : list Node) (path : address) (n : Node) :
  node_at path treeData = Some n →
  is_Some (nodeMap (maps (load treeData)) !! id n).
Proof.
  intros Hn%node_at_flatten. rewrite load_nodeMap.
  apply lookup_foldl_write_is_Some. left.
  rewrite nodeWrites_keys. by apply list_elem_of_fmap_2.
Qed.

Lemma nodeMap_lookup_unique (treeData : list Node) (path : address) (n : Node) :
  unique_ids treeData → node_at path treeData = Some n →
  nodeMap (maps (load treeData)) !! id n = Some n.
Proof.
  intros Huniq Hn%node_at_flatten. rewrite load_nodeMap.
  apply lookup_foldl_write_in.
  - by rewrite nodeWrites_keys.
  - unfold nodeWrites. by apply (list_elem_of_fmap_2 (λ n, (id n, n))).
Qed.

Lemma parentMap_lookup_child (treeData : list Node) (path : address) (i : nat)
    (pn c : Node) :
  unique_ids treeData →
  node_at path treeData = Some pn → children pn !! i = Some c →
  parentMap (maps (load treeData)) !! id c = Some (id pn).
Proof.
  intros Huniq Hpn Hc. rewrite load_parentMap.
  apply lookup_foldl_write_in; [by apply parentWrites_keys_NoDup|].
  by eapply parentWrites_of_path.
Qed.

Lemma parentMap_lookup_Some (treeData : list Node) (k q : jsstring) :
  parentMap (maps (load treeData)) !! k = Some q →
  ∃ path i pn c, node_at path treeData = Some pn ∧ children pn !! i = Some c ∧
                 k = id c ∧ q = id pn.
Proof.
  rewrite load_parentMap. intros [Hin|?]%lookup_foldl_write_Some; [|done].
  apply elem_of_parentWrites in Hin as [(? & ? & ? & ? & _)|?]; done.
Qed.

Lemma parentMap_lookup_root (treeData : list Node) (i : nat) (root : Node) :
  unique_ids treeData → treeData !! i = Some root →
  parentMap (maps (load treeData)) !! id root = None.
Proof.
  intros Huniq Hroot.
  destruct (parentMap (maps (load treeData)) !! id root) as [q|] eqn:Hq; [|done].
  apply parentMap_lookup_Some in Hq as (path & j & pn & c & Hpn & Hc & Hid & _).
  assert (node_at (path ++ [j]) treeData = Some c) as Hpath.
  { by rewrite (node_at_snoc _ _ _ _ Hpn). }
  assert ([i] = path ++ [j]) as Heq.
  { eapply unique_ids_address; [done| |done|done]. by rewrite node_at_singleton. }
  destruct path as [|? [|]]; simplify_eq/=.
Qed.

(** C9: with pairwise-distinct ids, [nodeMap] after [buildMaps] holds one
    entry per node of the forest, every depth (each node is stored under
    its id, each entry is a node of the forest, and the size is the count
    of [countItems]); [parentMap] maps the id of every non-root node to the
    id of its parent and has no entry for a root. *)
Theorem buildMaps_index_complete (treeData : list Node) :
  unique_ids treeData →
  size (nodeMap (maps (load treeData))) = countItems treeData ∧
  (∀ path n, node_at path treeData = Some n →
             nodeMap (maps (load treeData)) !! id n = Some n) ∧
  (∀ k n, nodeMap (maps (load treeData)) !! k = Some n →
          id n = k ∧ ∃ path, node_at path treeData = Some n) ∧
  (∀ path i pn c,
     node_at path treeData = Some pn → node_at (path ++ [i]) treeData = Some c →
     parentMap (maps (load treeData)) !! id c = Some (id pn)) ∧
  (∀ i root, node_at [i] treeData = Some root →
             parentMap (maps (load treeData)) !! id root = None).
Proof.
  intros Huniq. split_and!.
  - rewrite load_nodeMap, size_foldl_write.
    + rewrite map_size_empty, countItems_flatten. unfold nodeWrites.
      by rewrite length_fmap.
    + by rewrite nodeWrites_keys.
    + intros. apply lookup_empty.
  - intros path n. by apply nodeMap_lookup_unique.
  - apply nodeMap_lookup_Some.
  - intros path i pn c Hpn Hc. rewrite (node_at_snoc _ _ _ _ Hpn) in Hc.
    by eapply parentMap_lookup_child.
  - intros i root Hroot. rewrite node_at_singleton in Hroot.
    by eapply parentMap_lookup_root.
Qed.

Lemma sampleForest_unique_ids : unique_ids sampleForest.
Proof. unfold unique_ids. apply (bool_decide_unpack _). by vm_compute. Qed.

Lemma buildMaps_index_complete_witness :
  unique_ids sampleForest ∧
  size (nodeMap (maps (load sampleForest))) = 4 ∧
  countItems sampleForest = 4 ∧
  parentMap (maps (load sampleForest)) !! str "A1a" = Some (str "A1") ∧
  parentMap (maps (load sampleForest)) !! str "A" = None.
Proof.
  assert (unique_ids sampleForest) as Huniq.
  { unfold unique_ids. apply (bool_decide_unpack _). by vm_compute. }
  destruct (buildMaps_index_complete sampleForest Huniq)
    as (Hsize & _ & _ & Hchild & Hroot).
  split_and!.
  - exact Huniq.
  - rewrite Hsize. reflexivity.
  - reflexivity.
  - exact (Hchild [0; 0] 0 _ _ eq_refl eq_refl).
  - exact (Hroot 0 _ eq_refl).
Defined.

(** ** [getPath] *)

Lemma node_at_cons_cons_inv (i j : nat) (rest : address) (nodes : list Node)
    (n : Node) :
  node_at (i :: j :: rest) nodes = Some n →
  ∃ node, nodes !! i = Some node ∧ node_at (j :: rest) (children node) = Some n.
Proof.
  rewrite node_at_cons_cons. destruct (nodes !! i) as [node|]; [|done].
  intros Hn. by exists node.
Qed.

Lemma node_at_cons_cons_Some (i j : nat) (rest : address) (nodes : list Node)
    (node : Node) :
  nodes !! i = Some node →
  node_at (i :: j :: rest) nodes = node_at (j :: rest) (children node).
Proof. intros Hi. by rewrite node_at_cons_cons, Hi. Qed.

Lemma ids_along_cons (i : nat) (rest : address) (nodes : list Node) (node : Node) :
  nodes !! i = Some node →
  ids_along (i :: rest) nodes = id node :: ids_along rest (children node).
Proof. intros Hi. simpl. by rewrite Hi. Qed.

Lemma ids_along_last (path : address) (nodes : list Node) (n : Node) :
  node_at path nodes = Some n →
  ids_along path nodes = ids_along (removelast path) nodes ++ [id n].
Proof.
  revert nodes. induction path as [|j rest IH]; intros nodes; [done|].
  destruct rest as [|k rest].
  - rewrite node_at_singleton. intros Hj. by rewrite (ids_along_cons _ _ _ _ Hj).
  - intros (node & Hj & Hn)%node_at_cons_cons_inv.
    change (removelast (j :: k :: rest)) with (j :: removelast (k :: rest)).
    rewrite !(ids_along_cons _ _ _ _ Hj), (IH _ Hn). done.
Qed.

Lemma ids_along_length (path : address) (nodes : list Node) (n : Node) :
  node_at path nodes = Some n → length (ids_along path nodes) = length path.
Proof.
  revert nodes. induction path as [|j rest IH]; intros nodes; [done|].
  destruct rest as [|k rest].
  - rewrite node_at_singleton. intros Hj. by rewrite (ids_along_cons _ _ _ _ Hj).
  - intros (node & Hj & Hn)%node_at_cons_cons_inv.
    rewrite (ids_along_cons _ _ _ _ Hj). cbn [length]. by rewrite (IH _ Hn).
Qed.

(** The [k]-th id on the way down is the id of the ancestor at depth
    [k + 1]. *)
Lemma ids_along_lookup (path : address) (nodes : list Node) (n : Node) (k : nat) :
  node_at path nodes = Some n → k < length path →
  ids_along path nodes !! k = id <$> node_at (take (S k) path) nodes.
Proof.
  revert nodes k. induction path as [|j rest IH]; intros nodes k; [done|].
  destruct rest as [|i rest].
  - rewrite node_at_singleton. intros Hj Hk. cbn [length] in Hk.
    assert (k = 0) as -> by lia.
    rewrite (ids_along_cons _ _ _ _ Hj). cbn [take]. by rewrite node_at_singleton, Hj.
  - intros (node & Hj & Hn)%node_at_cons_cons_inv Hk.
    rewrite (ids_along_cons _ _ _ _ Hj).
    destruct k as [|k].
    + cbn [take]. by rewrite node_at_singleton, Hj.
    + change (take (S (S k)) (j :: i :: rest)) with (j :: take (S k) (i :: rest)).
      rewrite lookup_cons. rewrite (IH _ k Hn) by (cbn [length] in *; lia).
      cbn [take]. by rewrite (node_at_cons_cons_Some _ _ _ _ _ Hj).
Qed.

Lemma whileHasParent_more_fuel {A : Type} (fuel fuel' : nat)
    (parents : gmap jsstring jsstring) (body : jsstring → A → A)
    (current : jsstring) (acc result : A) :
  whileHasParent fuel parents body current acc = Return result → fuel ≤ fuel' →
  whileHasParent fuel' parents body current acc = Return result.
Proof.
  revert fuel' current acc. induction fuel as [|fuel IH]; intros fuel' current acc.
  - destruct fuel'; simpl; destruct (parents !! current); done.
  - destruct fuel' as [|fuel']; [lia|]. simpl.
    destruct (parents !! current); [|done]. intros Hrun Hle. apply IH; [done|lia].
Qed.

Lemma whileHasParent_None {A : Type} (fuel : nat)
    (parents : gmap jsstring jsstring) (body : jsstring → A → A)
    (current : jsstring) (acc : A) :
  parents !! current = None →
  whileHasParent fuel parents body current acc = Return acc.
Proof. intros Hnone. destruct fuel; simpl; by rewrite Hnone. Qed.

Lemma whileHasParent_Some {A : Type} (fuel : nat)
    (parents : gmap jsstring jsstring) (body : jsstring → A → A)
    (current parent : jsstring) (acc : A) :
  parents !! current = Some parent →
  whileHasParent (S fuel) parents body current acc =
    whileHasParent fuel parents body parent (body parent acc).
Proof. intros Hsome. simpl. by rewrite Hsome. Qed.

(** With pairwise-distinct ids the loop started at a node visits its
    ancestors, nearest first, and stops at the root. *)
Lemma whileHasParent_along {A : Type} (treeData : list Node) (body : jsstring → A → A)
    (path : address) (n : Node) (fuel : nat) (acc : A) :
  unique_ids treeData → node_at path treeData = Some n → length path ≤ S fuel →
  whileHasParent fuel (parentMap (maps (load treeData))) body (id n) acc =
    Return (foldr body acc (ids_along (removelast path) treeData)).
Proof.
  intros Huniq. revert n fuel acc.
  induction path as [|i path IH] using rev_ind; intros n fuel acc Hn Hfuel; [done|].
  rewrite removelast_last.
  destruct (decide (path = [])) as [->|Hne].
  - change ([] ++ [i]) with [i] in Hn. rewrite node_at_singleton in Hn.
    by rewrite whileHasParent_None by by eapply parentMap_lookup_root.
  - destruct (node_at_snoc_parent _ _ _ _ Hne Hn) as (pn & Hpn & Hc).
    rewrite length_app in Hfuel. cbn [length] in Hfuel.
    destruct fuel as [|fuel]; [destruct path; cbn [length] in *; [done|lia]|].
    rewrite (whileHasParent_Some _ _ _ _ (id pn))
      by by eapply parentMap_lookup_child.
    rewrite IH with (n := pn) by (done || lia).
    by rewrite (ids_along_last _ _ _ Hpn), foldr_app.
Qed.

Lemma getPath_along (treeData : list Node) (path : address) (n : Node) (fuel : nat) :
  unique_ids treeData → node_at path treeData = Some n → length path ≤ S fuel →
  getPath fuel (parentMap (maps (load treeData))) (id n) =
    Return (ids_along path treeData).
Proof.
  intros Huniq Hn Hfuel. unfold getPath.
  rewrite (whileHasParent_along _ _ _ _ _ _ Huniq Hn Hfuel).
  rewrite (ids_along_last _ _ _ Hn). f_equal.
  induction (ids_along (removelast path) treeData) as [|x l IHl]; [done|].
  cbn [foldr app]. by rewrite IHl.
Qed.

Lemma mapM_Outcome_Forall2 {A B} (f : A → Outcome B) (l : list A) :
  (∀ x, x ∈ l → ∃ y, f x = Return y) →
  ∃ ys, mapM f l = Return ys ∧ Forall2 (λ x y, f x = Return y) l ys.
Proof.
  induction l as [|x l IH]; intros Hf; [by exists []|].
  destruct (Hf x) as [y Hy]; [left|].
  destruct IH as (ys & Hys & Hall); [intros; apply Hf; by right|].
  exists (y :: ys). rewrite mapM_Outcome_cons, Hy, Hys. split; [done|].
  by constructor.
Qed.

Lemma ids_along_registered (treeData : list Node) (path : address) (n : Node)
    (k : jsstring) :
  node_at path treeData = Some n → k ∈ ids_along path treeData →
  is_Some (nodeMap (maps (load treeData)) !! k).
Proof.
  intros Hn (i & Hi)%list_elem_of_lookup_1.
  assert (i < length path) as Hlt.
  { apply lookup_lt_Some in Hi. by rewrite (ids_along_length _ _ _ Hn) in Hi. }
  rewrite (ids_along_lookup _ _ _ _ Hn Hlt) in Hi.
  destruct (node_at (take (S i) path) treeData) as [a|] eqn:Ha; simplify_eq/=.
  by eapply nodeMap_lookup_is_Some.
Qed.

(** [showDetail] on a node of the forest, with enough fuel for the two
    calls of [getPath]. *)
Lemma showDetail_node (treeData : list Node) (path : address) (n : Node)
    (fuel : nat) (page : Page) :
  unique_ids treeData → node_at path treeData = Some n → length path ≤ S fuel →
  maps page = maps (load treeData) →
  ∃ d, showDetail fuel (id n) page =
         Return {| maps := maps page; selectedNode := selectedNode page;
                   treeContainer := treeContainer page; detailView := Some d |} ∧
       detailCode d = id_display n ∧
       statLevel d = length path ∧
       (breadcrumb d).*1 = ids_along path treeData.
Proof.
  intros Huniq Hn Hfuel Hmaps. unfold showDetail. rewrite Hmaps.
  pose proof (nodeMap_lookup_unique _ _ _ Huniq Hn) as Hnode.
  pose proof (getPath_along _ _ _ _ Huniq Hn Hfuel) as Hpath.
  pose proof (λ k, ids_along_registered treeData path n k Hn) as Hreg.
  pose proof (ids_along_length _ _ _ Hn) as Hlen.
  generalize dependent (maps (load treeData)). intros index _ Hnode Hpath Hreg.
  generalize dependent (ids_along path treeData). intros crumbs Hlen Hpath Hreg.
  rewrite Hnode, Hpath. cbn [mbind Outcome_bind].
  set (crumb := λ k : jsstring, _).
  destruct (mapM_Outcome_Forall2 crumb crumbs) as (labels & -> & Hlabels).
  { intros k [m Hk]%Hreg. unfold crumb, getNode. rewrite Hk. by eexists. }
  cbn [mbind Outcome_bind]. set (level := λ ik : nat * jsstring, _).
  destruct (mapM_Outcome_Forall2 level (imap (λ i k, (i, k)) crumbs))
    as (levels & -> & _).
  { intros [i k] (j & k' & [= -> ->] & Hk%list_elem_of_lookup_2)%elem_of_lookup_imap_1.
    apply Hreg in Hk as [m Hk].
    unfold level, getNode. rewrite Hk. by eexists. }
  cbn [mbind Outcome_bind]. eexists. split; [reflexivity|]. cbn.
  split; [done|]. split; [done|].
  clear -Hlabels. induction Hlabels as [|k c ks cs Hc _ IH]; [done|].
  rewrite fmap_cons, IH. f_equal. unfold crumb in Hc.
  destruct (getNode _ k); by simplify_eq/=.
Qed.

(** C5: with pairwise-distinct ids, for the node at depth d (the length of
    its address) [getPath] returns exactly d ids, the id of the ancestor at
    depth k+1 at position k, so the root's id first and the node's own id
    last; and the level [showDetail] reports is d. *)
Theorem getPath_breadcrumb_depth (treeData : list Node) (path : address)
    (n : Node) (fuel : nat) :
  unique_ids treeData → node_at path treeData = Some n → length path ≤ S fuel →
  ∃ crumbs,
    getPath fuel (parentMap (maps (load treeData))) (id n) = Return crumbs ∧
    length crumbs = length path ∧
    (∀ k, k < length path →
          crumbs !! k = id <$> node_at (take (S k) path) treeData) ∧
    head crumbs = id <$> node_at (take 1 path) treeData ∧
    last crumbs = Some (id n) ∧
    ∃ page' d,
      showDetail fuel (id n) (load treeData) = Return page' ∧
      detailView page' = Some d ∧
      statLevel d = length path ∧
      (breadcrumb d).*1 = crumbs.
Proof.
  intros Huniq Hn Hfuel. exists (ids_along path treeData). split_and!.
  - by apply getPath_along.
  - by eapply ids_along_length.
  - intros k Hk. by eapply ids_along_lookup.
  - rewrite head_lookup. eapply ids_along_lookup; [done|].
    destruct path; [done|simpl; lia].
  - rewrite (ids_along_last _ _ _ Hn). apply last_snoc.
  - destruct (showDetail_node treeData path n fuel (load treeData))
      as (d & Hshow & _ & Hlevel & Hcrumbs); [done..|].
    by eexists _, d.
Qed.

Lemma getPath_breadcrumb_depth_witness :
  let n := sampleNode "A1a" "First" [] in
  unique_ids sampleForest ∧
  node_at [0; 0; 0] sampleForest = Some n ∧
  3 ≤ S 2 ∧
  ∃ crumbs,
    getPath 2 (parentMap (maps (load sampleForest))) (id n) = Return crumbs ∧
    length crumbs = 3 ∧
    (∀ k, k < 3 → crumbs !! k = id <$> node_at (take (S k) [0; 0; 0]) sampleForest) ∧
    head crumbs = id <$> node_at (take 1 [0; 0; 0]) sampleForest ∧
    last crumbs = Some (id n) ∧
    ∃ page' d,
      showDetail 2 (id n) (load sampleForest) = Return page' ∧
      detailView page' = Some d ∧
      statLevel d = 3 ∧
      (breadcrumb d).*1 = crumbs.
Proof.
  intros n.
  assert (unique_ids sampleForest) as Huniq.
  { unfold unique_ids. apply (bool_decide_unpack _). by vm_compute. }
  assert (node_at [0; 0; 0] sampleForest = Some n) as Hn by reflexivity.
  assert (3 ≤ S 2) as Hfuel by lia.
  split_and!; [exact Huniq|exact Hn|exact Hfuel|].
  exact (getPath_breadcrumb_depth sampleForest [0; 0; 0] n 2 Huniq Hn Hfuel).
Defined.

(** ** Acyclicity of the parent map *)

(** A climb in the parent map of a forest with pairwise-distinct ids goes
    from a node to one of its proper ancestors. *)
Lemma climbs_ancestor (treeData : list Node) (k r : jsstring) :
  unique_ids treeData →
  climbs (parentMap (maps (load treeData))) k r →
  ∃ above below n a,
    below ≠ [] ∧
    node_at (above ++ below) treeData = Some n ∧ id n = k ∧
    node_at above treeData = Some a ∧ id a = r.
Proof.
  intros Huniq. induction 1 as [k q Hstep|k q r Hstep _ IH].
  - apply parentMap_lookup_Some in Hstep as (path & i & pn & c & Hpn & Hc & -> & ->).
    exists path, [i], c, pn. split_and!; try done.
    by rewrite (node_at_snoc _ _ _ _ Hpn).
  - apply parentMap_lookup_Some in Hstep as (path & i & pn & c & Hpn & Hc & -> & ->).
    destruct IH as (above & below & n & a & Hne & Hn & Hid & Ha & <-).
    assert (path = above ++ below) as ->.
    { by eapply unique_ids_address. }
    exists above, (below ++ [i]), c, a. split_and!; try done.
    + by destruct below.
    + by rewrite app_assoc, (node_at_snoc _ _ _ _ Hpn).
Qed.

Lemma whileHasParent_two_cycle {A : Type} (parents : gmap jsstring jsstring)
    (body : jsstring → A → A) (a b : jsstring) :
  parents !! a = Some b → parents !! b = Some a →
  ∀ fuel acc, whileHasParent fuel parents body a acc = OutOfFuel.
Proof.
  intros Ha Hb fuel.
  assert (∀ acc, whileHasParent fuel parents body a acc = OutOfFuel ∧
                 whileHasParent fuel parents body b acc = OutOfFuel) as H;
    [|intros; apply H].
  induction fuel as [|fuel IH]; intros acc; simpl; rewrite Ha, Hb; [done|].
  split; apply IH.
Qed.

(** C10 (amended): for a forest with pairwise-distinct ids the parent map
    built by [buildMaps] is acyclic, [getPath] terminates for every id
    (also one that names no node), and for the id of a node it returns the
    ids from its root down to the node as soon as the fuel covers the
    node's depth. *)
Theorem getPath_terminates_unique_ids (treeData : list Node) :
  unique_ids treeData →
  acyclic (parentMap (maps (load treeData))) ∧
  (∀ nodeId, ∃ fuel crumbs, ∀ fuel',
     fuel ≤ fuel' →
     getPath fuel' (parentMap (maps (load treeData))) nodeId = Return crumbs) ∧
  (∀ path n fuel,
     node_at path treeData = Some n → length path ≤ S fuel →
     getPath fuel (parentMap (maps (load treeData))) (id n) =
       Return (ids_along path treeData)).
Proof.
  intros Huniq. split_and!.
  - intros k (above & below & n & a & Hne & Hn & Hk & Ha & Hr)%climbs_ancestor;
      [|done].
    assert (above ++ below = above) as Heq.
    { eapply unique_ids_address; [done..|]. by rewrite Hk, Hr. }
    rewrite <- (app_nil_r above) in Heq at 2. by apply app_inv_head in Heq.
  - intros nodeId.
    destruct (parentMap (maps (load treeData)) !! nodeId) as [q|] eqn:Hq.
    + apply parentMap_lookup_Some in Hq as (path & i & pn & c & Hpn & Hc & -> & ->).
      exists (length path), (ids_along (path ++ [i]) treeData). intros fuel' Hle.
      apply getPath_along; [done| |].
      * by rewrite (node_at_snoc _ _ _ _ Hpn).
      * rewrite length_app. simpl. lia.
    + exists 0, [nodeId]. intros fuel' _. unfold getPath.
      by apply whileHasParent_None.
  - intros path n fuel Hn Hfuel. by apply getPath_along.
Qed.

Lemma getPath_terminates_unique_ids_witness :
  unique_ids sampleForest ∧
  acyclic (parentMap (maps (load sampleForest))) ∧
  getPath 2 (parentMap (maps (load sampleForest))) (str "A1a") =
    Return [str "A"; str "A1"; str "A1a"].
Proof.
  assert (unique_ids sampleForest) as Huniq.
  { unfold unique_ids. apply (bool_decide_unpack _). by vm_compute. }
  destruct (getPath_terminates_unique_ids sampleForest Huniq)
    as (Hacyclic & _ & Hpath).
  split_and!; [exact Huniq|exact Hacyclic|].
  exact (Hpath [0; 0; 0] (sampleNode "A1a" "First" []) 2 eq_refl (le_n 3)).
Defined.

(** C10 (as stated, refuted): in [crossedForest] no node carries the id of
    one of its ancestors, yet the parent map sends [a] to [b] and [b] to
    [a], and [getPath("a")] never leaves its loop. *)
Lemma getPath_crossed_ids_diverges :
  no_ancestor_clash crossedForest = true ∧
  ¬ unique_ids crossedForest ∧
  climbs (parentMap (maps (load crossedForest))) (str "a") (str "a") ∧
  ¬ acyclic (parentMap (maps (load crossedForest))) ∧
  ∀ fuel, getPath fuel (parentMap (maps (load crossedForest))) (str "a") = OutOfFuel.
Proof.
  assert (parentMap (maps (load crossedForest)) !! str "a" = Some (str "b")) as Ha
    by (by vm_compute).
  assert (parentMap (maps (load crossedForest)) !! str "b" = Some (str "a")) as Hb
    by (by vm_compute).
  assert (climbs (parentMap (maps (load crossedForest))) (str "a") (str "a")) as Hcycle.
  { eapply climbs_further; [exact Ha|]. by apply climbs_once. }
  split_and!.
  - by vm_compute.
  - unfold unique_ids. apply (bool_decide_eq_false_1 _). by vm_compute.
  - exact Hcycle.
  - intros Hacyclic. by apply (Hacyclic (str "a")).
  - intros fuel. by apply whileHasParent_two_cycle with (b := str "b").
Qed.

(** ** The rendered tree *)

Lemma Element_forest_ind (Q : list Element → Prop) :
  Q [] →
  (∀ e rest, Q (tree_children e) → Q rest → Q (e :: rest)) →
  ∀ els, Q els.
Proof.
  intros Hnil Hcons.
  assert (∀ e, Q (tree_children e)) as Hkids.
  { fix IH 1. intros [a kids]. simpl.
    induction kids as [|k kids IHkids]; [exact Hnil|].
    apply Hcons; [apply IH|exact IHkids]. }
  intros els. induction els; auto.
Qed.

Lemma elem_at_singleton (i : nat) (els : list Element) :
  elem_at [i] els = els !! i.
Proof. simpl. by destruct (els !! i). Qed.

Lemma elem_at_cons_cons (i j : nat) (rest : address) (els : list Element) :
  elem_at (i :: j :: rest) els = e ← els !! i; elem_at (j :: rest) (tree_children e).
Proof. reflexivity. Qed.

Lemma attrs_at_singleton (i : nat) (els : list Element) :
  attrs_at [i] els = el <$> els !! i.
Proof. unfold attrs_at. by rewrite elem_at_singleton. Qed.

Lemma attrs_at_cons_cons (i j : nat) (rest : address) (els : list Element) :
  attrs_at (i :: j :: rest) els =
    e ← els !! i; attrs_at (j :: rest) (tree_children e).
Proof.
  unfold attrs_at. rewrite elem_at_cons_cons. by destruct (els !! i).
Qed.

Lemma forEachUnder_unfold (f : TreeNodeEl → TreeNodeEl) (e : Element) :
  forEachUnder f e =
    MkElement (f (el e)) (forEachTreeNode f (tree_children e)).
Proof. by destruct e. Qed.

(** A [forEach] over the tree nodes applies the callback at every
    address. *)
Lemma attrs_at_forEach (f : TreeNodeEl → TreeNodeEl) (path : address)
    (els : list Element) :
  attrs_at path (forEachTreeNode f els) = f <$> attrs_at path els.
Proof.
  revert els. induction path as [|i rest IH]; intros els; [done|].
  destruct rest as [|j rest].
  - rewrite !attrs_at_singleton. unfold forEachTreeNode.
    rewrite list_lookup_fmap. destruct (els !! i) as [e|]; [|done].
    simpl. by rewrite forEachUnder_unfold.
  - rewrite !attrs_at_cons_cons. unfold forEachTreeNode at 1.
    rewrite list_lookup_fmap. destruct (els !! i) as [e|]; [|done].
    simpl. rewrite forEachUnder_unfold. simpl. apply IH.
Qed.

Lemma update_at_cons (i : nat) (rest : address) (f : TreeNodeEl → TreeNodeEl)
    (els : list Element) :
  update_at (i :: rest) f els =
    alter (λ e, match rest with
                | [] => MkElement (f (el e)) (tree_children e)
                | _ => MkElement (el e) (update_at rest f (tree_children e))
                end) i els.
Proof. reflexivity. Qed.

(** An update at one address changes the flags there and nowhere else. *)
Lemma attrs_at_update_at (f : TreeNodeEl → TreeNodeEl) (p q : address)
    (els : list Element) :
  attrs_at p (update_at q f els) =
    if decide (p = q) then f <$> attrs_at p els else attrs_at p els.
Proof.
  revert p els. induction q as [|i rest IH]; intros p els.
  { simpl. case_decide as Hp; [|done]. by subst. }
  destruct p as [|j prest]; [by case_decide|].
  rewrite update_at_cons.
  destruct (decide (i = j)) as [<-|Hij].
  - assert (∀ g, attrs_at (i :: prest) (alter g i els) =
              e ← els !! i;
              match prest with
              | [] => Some (el (g e))
              | _ => attrs_at prest (tree_children (g e))
              end) as Halter.
    { intros g. destruct prest as [|k prest].
      - rewrite attrs_at_singleton, list_lookup_alter_eq.
        by destruct (els !! i).
      - rewrite attrs_at_cons_cons, list_lookup_alter_eq.
        by destruct (els !! i). }
    rewrite Halter.
    assert (attrs_at (i :: prest) els =
              e ← els !! i;
              match prest with
              | [] => Some (el e)
              | _ => attrs_at prest (tree_children e)
              end) as Hplain.
    { destruct prest as [|k prest].
      - rewrite attrs_at_singleton. by destruct (els !! i).
      - rewrite attrs_at_cons_cons. by destruct (els !! i). }
    rewrite Hplain. destruct (els !! i) as [e|]; [|by case_decide].
    destruct rest as [|k rest], prest as [|k' prest]; cbn -[update_at attrs_at].
    + by rewrite decide_True.
    + by rewrite decide_False.
    + by rewrite decide_False.
    + rewrite IH. destruct (decide (k' :: prest = k :: rest)) as [->|Hne].
      * by rewrite decide_True.
      * rewrite decide_False; [done|]. by intros [= -> ->].
  - rewrite decide_False by by intros [= ].
    destruct prest as [|k prest].
    + by rewrite !attrs_at_singleton, list_lookup_alter_ne.
    + by rewrite !attrs_at_cons_cons, list_lookup_alter_ne.
Qed.

Lemma prefix_snoc_cases {A} (p l : list A) (x : A) :
  p `prefix_of` l ++ [x] → p = l ++ [x] ∨ p `prefix_of` l.
Proof.
  intros [k Hk]. destruct k as [|y k _] using rev_ind.
  - left. by rewrite app_nil_r in Hk.
  - right. rewrite app_assoc in Hk. apply app_inj_tail in Hk as [-> _].
    by exists k.
Qed.

(** The loop of [selectNode] expands the element at the address it starts
    from and those above it, and touches nothing else. *)
Lemma attrs_at_expandParents (up : list nat) (p : address) (els : list Element) :
  attrs_at p (expandParents up els) =
    if decide (p ≠ [] ∧ p `prefix_of` rev up)
    then toggleNode (Some true) <$> attrs_at p els
    else attrs_at p els.
Proof.
  revert els. induction up as [|x outer IH]; intros els.
  { simpl. case_decide as Hp; [|done]. destruct Hp as [Hne Hpre].
    by apply prefix_nil_inv in Hpre. }
  cbn [expandParents]. rewrite IH, attrs_at_update_at.
  change (rev (x :: outer)) with (rev outer ++ [x]).
  destruct (decide (p = rev outer ++ [x])) as [->|Hne].
  - rewrite decide_False, decide_True; [done| |].
    + split; [by destruct (rev outer)|done].
    + intros [_ Hpre]. apply prefix_length in Hpre.
      rewrite length_app in Hpre. simpl in Hpre. lia.
  - destruct (decide (p ≠ [] ∧ p `prefix_of` rev outer)) as [[Hp Hpre]|Hno].
    + rewrite decide_True; [done|]. split; [done|]. by apply prefix_app_r.
    + rewrite decide_False; [done|]. intros [Hp Hpre]. apply Hno. split; [done|].
      apply prefix_snoc_cases in Hpre as [?|Hpre]; done.
Qed.

Lemma first_answer_Some {A B} (f : A → option B) (i j : nat) (l : list A) (b : B) :
  first_answer f i l = Some (j, b) →
  ∃ x, i ≤ j ∧ l !! (j - i) = Some x ∧ f x = Some b.
Proof.
  revert i. induction l as [|x l IH]; intros i; [done|].
  simpl. destruct (f x) as [b'|] eqn:Hx.
  - intros [= <- <-]. exists x. by rewrite Nat.sub_diag.
  - intros (y & Hle & Hy & Hfy)%IH. exists y. split; [lia|].
    replace (j - i) with (S (j - S i)) by lia. done.
Qed.


Lemma findUnder_unfold (nodeId : jsstring) (e : Element) :
  findUnder nodeId e =
    if decide (data_id (el e) = nodeId) then Some []
    else '(i, p) ← first_answer (findUnder nodeId) 0 (tree_children e); Some (i :: p).
Proof. by destruct e. Qed.

(** What [querySelector] returns is the address of an element with the
    id asked for. *)
Lemma querySelector_Some (nodeId : jsstring) (els : list Element) (path : address) :
  querySelector nodeId els = Some path →
  ∃ a, attrs_at path els = Some a ∧ data_id a = nodeId.
Proof.
  unfold querySelector. revert els.
  induction path as [|i rest IH]; intros els.
  { destruct (first_answer _ _ _) as [[]|]; done. }
  destruct (first_answer (findUnder nodeId) 0 els) as [[j p]|] eqn:Hfirst; [|done].
  simpl. intros [= -> ->].
  apply first_answer_Some in Hfirst as (e & _ & He & Hfind).
  rewrite Nat.sub_0_r in He. rewrite findUnder_unfold in Hfind.
  case_decide as Hid.
  - injection Hfind as <-. exists (el e). by rewrite attrs_at_singleton, He.
  - destruct rest as [|k rest].
    { destruct (first_answer _ _ _) as [[]|]; done. }
    destruct (IH (tree_children e)) as (a & Ha & Hida); [done|].
    exists a. by rewrite attrs_at_cons_cons, He.
Qed.


Lemma renderNode_unfold (level : nat) (node : Node) :
  renderNode level node =
    MkElement
      {| data_id := id node; data_level := level;
         expanded := false; search_hidden := false; search_match := false;
         selected := false;
         toggle_hidden := negb (bool_decide (0 < length (children node)));
         toggle_expanded := false |}
      (renderTree (children node) (S level)).
Proof. by destruct node. Qed.

(** [renderTree] puts one element at the address of every node. *)
Lemma attrs_at_renderTree (treeData : list Node) (level : nat) (path : address) :
  attrs_at path (renderTree treeData level) =
    (λ n, {| data_id := id n; data_level := level + pred (length path);
             expanded := false; search_hidden := false; search_match := false;
             selected := false;
             toggle_hidden := negb (bool_decide (0 < length (children n)));
             toggle_expanded := false |}) <$> node_at path treeData.
Proof.
  revert treeData level. induction path as [|i rest IH]; intros treeData level; [done|].
  destruct rest as [|j rest].
  - rewrite attrs_at_singleton, node_at_singleton. unfold renderTree.
    rewrite list_lookup_fmap. destruct (treeData !! i) as [n|]; [|done].
    simpl. rewrite renderNode_unfold. simpl. by rewrite Nat.add_0_r.
  - rewrite attrs_at_cons_cons, node_at_cons_cons. unfold renderTree at 1.
    rewrite list_lookup_fmap. destruct (treeData !! i) as [n|]; [|done].
    cbn -[attrs_at node_at]. rewrite renderNode_unfold.
    cbn -[attrs_at node_at]. rewrite IH.
    destruct (node_at (j :: rest) (children n)); [|done].
    simpl. do 2 f_equal. lia.
Qed.

Lemma mapM_Outcome_pure {A B} (f : A → Outcome B) (g : A → B) (l : list A) :
  (∀ x, x ∈ l → f x = Return (g x)) → mapM f l = Return (g <$> l).
Proof.
  induction l as [|x l IH]; intros Hf; [done|].
  rewrite mapM_Outcome_cons, Hf, IH; [done| |left].
  intros y Hy. apply Hf. by right.
Qed.

(** A throwing callback that returns normally on every element of the
    tree amounts to a plain [forEach]. *)
Lemma forEachTreeNodeM_pure (f : TreeNodeEl → Outcome TreeNodeEl)
    (g : TreeNodeEl → TreeNodeEl) (els : list Element) :
  (∀ path a, attrs_at path els = Some a → f a = Return (g a)) →
  forEachTreeNodeM f els = Return (forEachTreeNode g els).
Proof.
  induction els as [|e rest IHkids IHrest] using Element_forest_ind; intros Hf; [done|].
  unfold forEachTreeNodeM, forEachTreeNode in *.
  rewrite mapM_Outcome_cons, fmap_cons.
  assert (forEachUnderM f e = Return (forEachUnder g e)) as ->.
  { destruct e as [a kids]. cbn [forEachUnderM forEachUnder].
    rewrite (Hf [0] a) by done. cbn [mbind Outcome_bind].
    simpl in IHkids. rewrite IHkids; [done|].
    intros path b Hb. apply (Hf (0 :: path)).
    destruct path as [|j path]; [done|]. by rewrite attrs_at_cons_cons. }
  cbn [mbind Outcome_bind]. rewrite IHrest; [done|].
  intros path b Hb. destruct path as [|j path]; [done|].
  apply (Hf (S j :: path)). revert Hb. unfold attrs_at.
  by destruct path.
Qed.

(** ** Pages *)

Lemma renders_attrs (treeData : list Node) (els : list Element) (path : address)
    (a : TreeNodeEl) :
  renders treeData els → attrs_at path els = Some a →
  ∃ n, node_at path treeData = Some n ∧ data_id a = id n ∧
       data_level a = pred (length path).
Proof.
  intros Hr Ha. specialize (Hr path). rewrite Ha in Hr.
  destruct (node_at path treeData) as [n|]; [|done]. by exists n.
Qed.

Lemma renders_node (treeData : list Node) (els : list Element) (path : address)
    (n : Node) :
  renders treeData els → node_at path treeData = Some n →
  ∃ a, attrs_at path els = Some a ∧ data_id a = id n ∧
       data_level a = pred (length path).
Proof.
  intros Hr Hn. specialize (Hr path). rewrite Hn in Hr.
  destruct (attrs_at path els) as [a|]; [|done]. by exists a.
Qed.

(** Changing flags only, address by address, keeps a tree the rendering
    of the forest. *)
Lemma renders_flags (treeData : list Node) (els els' : list Element) :
  renders treeData els →
  (∀ path, ∃ f, attrs_at path els' = f <$> attrs_at path els ∧
                ∀ a, data_id (f a) = data_id a ∧ data_level (f a) = data_level a) →
  renders treeData els'.
Proof.
  intros Hr Hflags path. specialize (Hr path).
  destruct (Hflags path) as (f & -> & Hf).
  destruct (node_at path treeData), (attrs_at path els) as [a|]; simpl; try done.
  destruct (Hf a) as [-> ->]. done.
Qed.

Lemma renders_load (treeData : list Node) :
  renders treeData (treeContainer (load treeData)).
Proof.
  intros path. simpl. rewrite attrs_at_renderTree.
  by destruct (node_at path treeData).
Qed.

Lemma displays_load (treeData : list Node) : displays treeData (load treeData).
Proof. split; [done|apply renders_load]. Qed.



Lemma above_expandParents (p path : address) :
  path ≠ [] →
  (p ≠ [] ∧ p `prefix_of` rev (tail (rev path))) ↔ above p path.
Proof.
  intros Hne. destruct path as [|i path _] using rev_ind; [done|].
  rewrite rev_app_distr. simpl. rewrite rev_involutive. unfold above. split.
  - intros [Hp Hpre]. split; [done|]. split; [by apply prefix_app_r|].
    intros ->. by apply prefix_snoc_not in Hpre.
  - intros (Hp & Hpre & Hneq). split; [done|].
    by apply prefix_snoc_cases in Hpre as [?|?].
Qed.

Lemma above_not_self (path : address) : ¬ above path path.
Proof. by intros (_ & _ & ?). Qed.

(** The tree after [selectNode] has looked an element up and found it at
    [path]. *)
Lemma attrs_at_selectNode_tree (els : list Element) (path p : address) :
  path ≠ [] →
  attrs_at p (expandParents (tail (rev path))
                (update_at path (set_selected true)
                   (forEachTreeNode (set_selected false) els))) =
    (λ a, if decide (p = path) then set_selected true a
          else if decide (above p path)
               then toggleNode (Some true) (set_selected false a)
               else set_selected false a) <$> attrs_at p els.
Proof.
  intros Hne. rewrite attrs_at_expandParents, attrs_at_update_at, attrs_at_forEach.
  destruct (decide (p = path)) as [->|Hp].
  - rewrite decide_False.
    + by destruct (attrs_at path els).
    + rewrite above_expandParents by done. apply above_not_self.
  - destruct (decide (above p path)) as [Habove|Hnot].
    + rewrite decide_True by by apply above_expandParents.
      by destruct (attrs_at p els).
    + rewrite decide_False; [done|]. by rewrite above_expandParents.
Qed.






(** ** Search *)

Lemma depthBelow_unfold (node : Node) :
  depthBelow node = S (forestDepth (children node)).
Proof. by destruct node. Qed.

Lemma forestDepth_lookup (nodes : list Node) (i : nat) (node : Node) :
  nodes !! i = Some node → depthBelow node ≤ forestDepth nodes.
Proof.
  revert i. induction nodes as [|x nodes IH]; intros i; [done|].
  change (forestDepth (x :: nodes)) with (depthBelow x `max` forestDepth nodes).
  destruct i as [|i].
  - intros [= ->]. lia.
  - intros Hi%IH. lia.
Qed.

Lemma node_at_depth (path : address) (nodes : list Node) (n : Node) :
  node_at path nodes = Some n → length path ≤ forestDepth nodes.
Proof.
  revert nodes. induction path as [|i rest IH]; intros nodes; [done|].
  destruct rest as [|j rest].
  - rewrite node_at_singleton. intros Hi%forestDepth_lookup.
    rewrite depthBelow_unfold in Hi. simpl. lia.
  - intros (node & Hi%forestDepth_lookup & Hn%IH)%node_at_cons_cons_inv.
    rewrite depthBelow_unfold in Hi. cbn [length] in *. lia.
Qed.

Lemma elem_of_foldr_union (l : list jsstring) (acc : gset jsstring) (x : jsstring) :
  x ∈ foldr (λ current ids, {[current]} ∪ ids) acc l ↔ x ∈ l ∨ x ∈ acc.
Proof.
  induction l as [|y l IH]; simpl.
  - rewrite elem_of_nil. naive_solver.
  - rewrite elem_of_union, elem_of_singleton, elem_of_cons, IH. naive_solver.
Qed.

Lemma ids_along_elem (path : address) (nodes : list Node) (n : Node) (k : jsstring) :
  node_at path nodes = Some n →
  k ∈ ids_along path nodes ↔
  ∃ p q a, path = p ++ q ∧ node_at p nodes = Some a ∧ id a = k.
Proof.
  intros Hn. split.
  - intros (i & Hi)%list_elem_of_lookup_1.
    assert (i < length path) as Hlt.
    { apply lookup_lt_Some in Hi. by rewrite (ids_along_length _ _ _ Hn) in Hi. }
    rewrite (ids_along_lookup _ _ _ _ Hn Hlt) in Hi.
    destruct (node_at (take (S i) path) nodes) as [a|] eqn:Ha; simplify_eq/=.
    exists (take (S i) path), (drop (S i) path), a.
    by rewrite take_drop.
  - intros (p & q & a & -> & Ha & <-).
    assert (p ≠ []) as Hp by by destruct p.
    apply list_elem_of_lookup. exists (pred (length p)).
    rewrite (ids_along_lookup _ _ _ _ Hn).
    + replace (S (pred (length p))) with (length p) by (destruct p; simpl; [done|lia]).
      by rewrite take_app_length, Ha.
    + rewrite length_app. destruct p; simpl; [done|lia].
Qed.

Lemma trimStart_blank (s : jsstring) :
  trimStart s = [] ↔ forallb isWhiteSpace s = true.
Proof.
  induction s as [|c s IH]; [done|]. simpl.
  destruct (isWhiteSpace c); [done|]. split; done.
Qed.

Lemma trimStart_head (s : jsstring) (c : N) (rest : jsstring) :
  trimStart s = c :: rest → isWhiteSpace c = false.
Proof.
  induction s as [|d s IH]; [done|]. simpl.
  destruct (isWhiteSpace d) eqn:Hd; [done|]. by intros [= <- _].
Qed.

(** [trim] leaves nothing exactly of the strings made of white space. *)
Lemma trim_blank (s : jsstring) :
  trim s = [] ↔ forallb isWhiteSpace s = true.
Proof.
  rewrite <- trimStart_blank. unfold trim, trimEnd. split.
  - intros Hrev. apply (f_equal (@rev N)) in Hrev. rewrite rev_involutive in Hrev.
    simpl in Hrev. apply trimStart_blank in Hrev.
    destruct (trimStart s) as [|c rest] eqn:Hs; [done|].
    apply trimStart_head in Hs. rewrite forallb_forall in Hrev.
    rewrite (Hrev c) in Hs; [done|]. apply in_rev. rewrite rev_involutive. by left.
  - by intros ->.
Qed.

Section SearchProofs.
Variable toLowerCase : jsstring → jsstring.

Abbreviation matchesTerm' := (matchesTerm toLowerCase).

(** What one turn of [nodeMap.forEach] adds to the set. *)
Lemma collectMatch_node (treeData : list Node) (fuel : nat) (lowerTerm : jsstring)
    (ids : gset jsstring) (path : address) (n : Node) :
  unique_ids treeData → forestDepth treeData ≤ S fuel →
  node_at path treeData = Some n →
  ∃ ids',
    collectMatch toLowerCase fuel (parentMap (maps (load treeData))) lowerTerm ids
      (id n, n) = Return ids' ∧
    ∀ x, x ∈ ids' ↔
         x ∈ ids ∨ (matchesTerm' lowerTerm n = true ∧ x ∈ ids_along path treeData).
Proof.
  intros Huniq Hfuel Hn. unfold collectMatch. cbn [fst snd].
  destruct (matchesTerm' lowerTerm n) eqn:Hmatch.
  - rewrite (whileHasParent_along treeData _ path n) by
      (done || (apply node_at_depth in Hn; lia)).
    eexists. split; [done|]. intros x.
    rewrite elem_of_foldr_union, elem_of_union, elem_of_singleton.
    rewrite (ids_along_last _ _ _ Hn), elem_of_app, list_elem_of_singleton.
    naive_solver.
  - exists ids. split; [done|]. naive_solver.
Qed.

Lemma collect_fold (treeData : list Node) (fuel : nat) (lowerTerm : jsstring)
    (entries : list (jsstring * Node)) (ids : gset jsstring) :
  unique_ids treeData → forestDepth treeData ≤ S fuel →
  (∀ k n, (k, n) ∈ entries → nodeMap (maps (load treeData)) !! k = Some n) →
  ∃ ids',
    foldl (λ acc entry,
             ids ← acc;
             collectMatch toLowerCase fuel (parentMap (maps (load treeData)))
               lowerTerm ids entry) (Return ids) entries = Return ids' ∧
    ∀ x, x ∈ ids' ↔
         x ∈ ids ∨
         ∃ path n, (id n, n) ∈ entries ∧ node_at path treeData = Some n ∧
                   matchesTerm' lowerTerm n = true ∧
                   x ∈ ids_along path treeData.
Proof.
  intros Huniq Hfuel. revert ids.
  induction entries as [|[k n] entries IH]; intros ids Hentries.
  { exists ids. split; [done|]. intros x. split; [by left|].
    intros [?|(? & ? & []%elem_of_nil & _)]. done. }
  destruct (nodeMap_lookup_Some treeData k n) as [<- [path Hn]].
  { apply Hentries. left. }
  destruct (collectMatch_node treeData fuel lowerTerm ids path n Huniq Hfuel Hn)
    as (ids1 & Hstep & Hids1).
  cbn [foldl mbind Outcome_bind]. rewrite Hstep.
  destruct (IH ids1) as (ids' & -> & Hids').
  { intros k' n' Hin. apply Hentries. by right. }
  exists ids'. split; [done|]. intros x. rewrite Hids', Hids1. split.
  - intros [[?|[Hm Hx]]|(path' & n' & Hin & Hn' & Hm & Hx)].
    + by left.
    + right. exists path, n. split_and!; try done. left.
    + right. exists path', n'. split_and!; try done. by right.
  - intros [?|(path' & n' & [[= Hid ->]|Hin]%elem_of_cons & Hn' & Hm & Hx)].
    + left. by left.
    + left. right. split; [done|].
      by rewrite (unique_ids_address _ _ _ _ _ Huniq Hn Hn' eq_refl).
    + right. by exists path', n'.
Qed.

(** The set [search] collects: the ids on the way down to a matching
    node. *)
Lemma matchingIds_spec (treeData : list Node) (fuel : nat) (lowerTerm : jsstring) :
  unique_ids treeData → forestDepth treeData ≤ S fuel →
  ∃ matchingIds,
    foldl (λ acc entry,
             ids ← acc;
             collectMatch toLowerCase fuel (parentMap (maps (load treeData)))
               lowerTerm ids entry) (Return ∅)
          (map_to_list (nodeMap (maps (load treeData)))) = Return matchingIds ∧
    ∀ p a, node_at p treeData = Some a →
           id a ∈ matchingIds ↔
           ∃ q m, node_at (p ++ q) treeData = Some m ∧
                  matchesTerm' lowerTerm m = true.
Proof.
  intros Huniq Hfuel.
  destruct (collect_fold treeData fuel lowerTerm
              (map_to_list (nodeMap (maps (load treeData)))) ∅ Huniq Hfuel)
    as (ids & Hfold & Hids).
  { intros k n. by rewrite elem_of_map_to_list. }
  exists ids. split; [done|]. intros p a Ha. rewrite Hids. split.
  - intros [[]%elem_of_empty|(path & m & _ & Hm & Hmatch & Halong)].
    apply (ids_along_elem _ _ _ _ Hm) in Halong as (p' & q & a' & -> & Ha' & Hid).
    rewrite (unique_ids_address _ _ _ _ _ Huniq Ha Ha') by done.
    by exists q, m.
  - intros (q & m & Hm & Hmatch). right. exists (p ++ q), m. split_and!; try done.
    + rewrite elem_of_map_to_list. by eapply nodeMap_lookup_unique.
    + apply (ids_along_elem _ _ _ _ Hm). by exists p, q, a.
Qed.

(** [search] with a term that is not blank, on a page showing a forest
    with pairwise-distinct ids and with fuel for its depth: the run ends,
    and the tree is the old one with the search classes reset and then
    set per element by [markRegistered]. *)
Lemma search_run (treeData : list Node) (page : Page) (fuel : nat) (term : jsstring) :
  unique_ids treeData → displays treeData page →
  forestDepth treeData ≤ S fuel →
  trim (toLowerCase term) ≠ [] →
  ∃ matchingIds,
    search toLowerCase fuel term page =
      Return (setTree
                (forEachTreeNode
                   (markRegistered toLowerCase (nodeMap (maps page))
                      (trim (toLowerCase term)) matchingIds)
                   (forEachTreeNode (set_search false false) (treeContainer page)))
                page) ∧
    ∀ p a, node_at p treeData = Some a →
           id a ∈ matchingIds ↔
           ∃ q m, node_at (p ++ q) treeData = Some m ∧
                  matchesTerm' (trim (toLowerCase term)) m = true.
Proof.
  intros Huniq [Hmaps Hr] Hfuel Hterm. unfold search.
  rewrite decide_False by done. rewrite Hmaps.
  destruct (matchingIds_spec treeData fuel (trim (toLowerCase term)) Huniq Hfuel)
    as (matchingIds & -> & Hspec).
  exists matchingIds. split; [|done]. cbn [mbind Outcome_bind].
  rewrite (forEachTreeNodeM_pure _
             (markRegistered toLowerCase (nodeMap (maps (load treeData)))
                (trim (toLowerCase term)) matchingIds)).
  { unfold setTree. by rewrite Hmaps. }
  intros p a. rewrite attrs_at_forEach.
  destruct (attrs_at p (treeContainer page)) as [b|] eqn:Hb; [|done].
  intros [= <-].
  destruct (renders_attrs _ _ _ _ Hr Hb) as (n & Hn & Hid & _).
  unfold markNode, markRegistered. cbn [data_id set_search].
  case_decide; [|done].
  unfold getNode. rewrite Hid, (nodeMap_lookup_unique _ _ _ Huniq Hn).
  cbn [mbind Outcome_bind]. by destruct (matchesTerm toLowerCase _ n).
Qed.

(** X3: a term that is empty or white space once lower-cased makes
    [search] take the search classes off every element and stop there, for
    any page and without entering a loop: no element is hidden or marked as
    a match, while the expanded and selected flags, the indices, the
    recorded selection and the detail pane stay as they were, so nodes a
    previous search expanded remain expanded. *)
Theorem search_blank_term_resets_filter (page : Page) (fuel : nat) (term : jsstring) :
  forallb isWhiteSpace (toLowerCase term) = true →
  ∃ page',
    search toLowerCase fuel term page = Return page' ∧
    maps page' = maps page ∧
    selectedNode page' = selectedNode page ∧
    detailView page' = detailView page ∧
    (∀ p a, attrs_at p (treeContainer page') = Some a →
            search_hidden a = false ∧ search_match a = false) ∧
    (∀ p, expanded <$> attrs_at p (treeContainer page') =
          expanded <$> attrs_at p (treeContainer page)) ∧
    (∀ p, selected <$> attrs_at p (treeContainer page') =
          selected <$> attrs_at p (treeContainer page)).
Proof.
  intros Hblank%trim_blank. unfold search. rewrite decide_True by done.
  eexists. split; [done|]. simpl. split_and!; try done.
  - intros p a. rewrite attrs_at_forEach.
    destruct (attrs_at p (treeContainer page)); by intros [= <-].
  - intros p. rewrite attrs_at_forEach. by destruct (attrs_at p (treeContainer page)).
  - intros p. rewrite attrs_at_forEach. by destruct (attrs_at p (treeContainer page)).
Qed.

(** X4: on a page showing a forest with pairwise-distinct ids, with fuel for
    its depth and a term that is not blank, [search] ends and leaves the
    element of a node visible (not [search-hidden]) exactly when the node
    or a node below it matches, that is when its [id_display] or [name],
    lower-cased, contains the trimmed lower-cased term; the class
    [search-match] is on exactly the elements of matching nodes. *)
Theorem search_hides_branches_without_match (treeData : list Node) (page : Page)
    (fuel : nat) (term : jsstring) :
  unique_ids treeData → displays treeData page →
  forestDepth treeData ≤ S fuel →
  trim (toLowerCase term) ≠ [] →
  ∃ page',
    search toLowerCase fuel term page = Return page' ∧
    ∀ p n, node_at p treeData = Some n →
      ∃ a, attrs_at p (treeContainer page') = Some a ∧
           (search_hidden a = false ↔
              ∃ q m, node_at (p ++ q) treeData = Some m ∧
                     matchesTerm' (trim (toLowerCase term)) m = true) ∧
           search_match a = matchesTerm' (trim (toLowerCase term)) n.
Proof.
  intros Huniq Hdisp Hfuel Hterm.
  destruct (search_run treeData page fuel term Huniq Hdisp Hfuel Hterm)
    as (matchingIds & -> & Hspec).
  destruct Hdisp as [Hmaps Hr].
  eexists. split; [done|]. intros p n Hn. cbn [treeContainer setTree].
  rewrite !attrs_at_forEach.
  destruct (renders_node _ _ _ _ Hr Hn) as (b & -> & Hid & _).
  eexists. split; [done|].
  specialize (Hspec p n Hn).
  assert (matchesTerm' (trim (toLowerCase term)) n = true → id n ∈ matchingIds)
    as Hself.
  { intros Hmatch. apply Hspec. exists [], n. by rewrite app_nil_r. }
  rewrite <- Hspec. clear Hspec.
  unfold markRegistered. cbn [data_id set_search]. rewrite Hid, Hmaps.
  rewrite (nodeMap_lookup_unique _ _ _ Huniq Hn).
  destruct (decide (id n ∈ matchingIds)) as [Hin|Hnotin].
  - destruct (matchesTerm toLowerCase _ n); done.
  - cbn. split; [done|].
    destruct (matchesTerm toLowerCase _ n) eqn:Hm; [|done].
    destruct Hnotin. by apply Hself.
Qed.

(** X5: under the same conditions [search] expands exactly the elements of
    the nodes that match by themselves and never collapses one: an element
    is expanded afterwards when its node matches or it was expanded before,
    so a node kept visible only for a match below it stays as collapsed as
    it was.  The selected marks, the indices, the recorded selection and
    the detail pane are not touched. *)
Theorem search_expands_direct_matches_only (treeData : list Node) (page : Page)
    (fuel : nat) (term : jsstring) :
  unique_ids treeData → displays treeData page →
  forestDepth treeData ≤ S fuel →
  trim (toLowerCase term) ≠ [] →
  ∃ page',
    search toLowerCase fuel term page = Return page' ∧
    maps page' = maps page ∧
    selectedNode page' = selectedNode page ∧
    detailView page' = detailView page ∧
    ∀ p n b, node_at p treeData = Some n →
      attrs_at p (treeContainer page) = Some b →
      ∃ a, attrs_at p (treeContainer page') = Some a ∧
           expanded a = matchesTerm' (trim (toLowerCase term)) n || expanded b ∧
           toggle_expanded a =
             matchesTerm' (trim (toLowerCase term)) n || toggle_expanded b ∧
           selected a = selected b.
Proof.
  intros Huniq Hdisp Hfuel Hterm.
  destruct (search_run treeData page fuel term Huniq Hdisp Hfuel Hterm)
    as (matchingIds & -> & Hspec).
  destruct Hdisp as [Hmaps Hr].
  eexists. split; [done|]. split_and!; try done.
  intros p n b Hn Hb. cbn [treeContainer setTree].
  rewrite !attrs_at_forEach, Hb.
  destruct (renders_attrs _ _ _ _ Hr Hb) as (n' & Hn' & Hid & _).
  assert (n' = n) as -> by congruence.
  eexists. split; [done|].
  assert (matchesTerm' (trim (toLowerCase term)) n = true → id n ∈ matchingIds)
    as Hself.
  { intros Hmatch. apply (Hspec p n Hn). exists [], n. by rewrite app_nil_r. }
  unfold markRegistered. cbn [data_id set_search]. rewrite Hid, Hmaps.
  rewrite (nodeMap_lookup_unique _ _ _ Huniq Hn).
  destruct (matchesTerm toLowerCase _ n) eqn:Hm.
  - rewrite decide_True by by apply Hself. done.
  - case_decide; done.
Qed.

End SearchProofs.

Lemma search_blank_term_resets_filter_witness :
  forallb isWhiteSpace (toLowerCaseBasicLatin (str "  ")) = true ∧
  ∃ page',
    search toLowerCaseBasicLatin 0 (str "  ") (load sampleForest) = Return page' ∧
    maps page' = maps (load sampleForest).
Proof.
  assert (forallb isWhiteSpace (toLowerCaseBasicLatin (str "  ")) = true) as Hblank
    by reflexivity.
  split; [exact Hblank|].
  destruct (search_blank_term_resets_filter toLowerCaseBasicLatin
              (load sampleForest) 0 (str "  ") Hblank)
    as (page' & Hrun & Hmaps & _).
  exists page'. by rewrite Hrun, Hmaps.
Defined.

Lemma search_hides_branches_without_match_witness :
  unique_ids sampleForest ∧
  displays sampleForest (load sampleForest) ∧
  forestDepth sampleForest ≤ S 2 ∧
  trim (toLowerCaseBasicLatin (str "a2 ")) ≠ [] ∧
  ∃ page',
    search toLowerCaseBasicLatin 2 (str "a2 ") (load sampleForest) = Return page' ∧
    ∃ a, attrs_at [0; 1] (treeContainer page') = Some a ∧ search_hidden a = false.
Proof.
  assert (unique_ids sampleForest) as Huniq.
  { unfold unique_ids. apply (bool_decide_unpack _). by vm_compute. }
  assert (forestDepth sampleForest ≤ S 2) as Hfuel by (vm_compute; lia).
  assert (trim (toLowerCaseBasicLatin (str "a2 ")) ≠ []) as Hterm by (by vm_compute).
  destruct (search_hides_branches_without_match toLowerCaseBasicLatin sampleForest
              (load sampleForest) 2 (str "a2 ") Huniq (displays_load sampleForest)
              Hfuel Hterm)
    as (page' & Hrun & Hspec).
  split_and!; [exact Huniq|apply displays_load|exact Hfuel|exact Hterm|].
  exists page'. split; [exact Hrun|].
  destruct (Hspec [0; 1] _ eq_refl) as (a & Ha & Hhidden & _).
  exists a. split; [exact Ha|].
  apply Hhidden. exists [], (sampleNode "A2" "Two" []). split; [reflexivity|].
  by vm_compute.
Defined.

Lemma search_expands_direct_matches_only_witness :
  unique_ids sampleForest ∧
  displays sampleForest (load sampleForest) ∧
  forestDepth sampleForest ≤ S 2 ∧
  trim (toLowerCaseBasicLatin (str "a2 ")) ≠ [] ∧
  ∃ page',
    search toLowerCaseBasicLatin 2 (str "a2 ") (load sampleForest) = Return page' ∧
    ∃ a, attrs_at [0] (treeContainer page') = Some a ∧ expanded a = false.
Proof.
  assert (unique_ids sampleForest) as Huniq.
  { unfold unique_ids. apply (bool_decide_unpack _). by vm_compute. }
  assert (forestDepth sampleForest ≤ S 2) as Hfuel by (vm_compute; lia).
  assert (trim (toLowerCaseBasicLatin (str "a2 ")) ≠ []) as Hterm by (by vm_compute).
  destruct (search_expands_direct_matches_only toLowerCaseBasicLatin sampleForest
              (load sampleForest) 2 (str "a2 ") Huniq (displays_load sampleForest)
              Hfuel Hterm)
    as (page' & Hrun & _ & _ & _ & Hspec).
  split_and!; [exact Huniq|apply displays_load|exact Hfuel|exact Hterm|].
  exists page'. split; [exact Hrun|].
  destruct (Hspec [0] _ _ eq_refl eq_refl) as (a & Ha & Hexp & _).
  exists a. split; [exact Ha|]. rewrite Hexp. by vm_compute.
Defined.

(** ** Rendering, toggles and the tree controls *)


(** X7: a click on the toggle of the element at [path] flips the expanded
    class of that element and the arrow with it, and changes no flag of any
    other element, above or below; a second click gives every element its
    expanded class back. *)
Theorem clickToggle_flips_one_node (path : address) (page : Page) :
  (∀ p, attrs_at p (treeContainer (clickToggle path page)) =
        if decide (p = path)
        then toggleNode None <$> attrs_at p (treeContainer page)
        else attrs_at p (treeContainer page)) ∧
  (∀ a b, attrs_at path (treeContainer page) = Some a →
          attrs_at path (treeContainer (clickToggle path page)) = Some b →
          expanded b = negb (expanded a) ∧ toggle_expanded b = expanded b ∧
          selected b = selected a ∧ search_hidden b = search_hidden a) ∧
  (∀ p, expanded <$> attrs_at p (treeContainer (clickToggle path (clickToggle path page))) =
        expanded <$> attrs_at p (treeContainer page)).
Proof.
  split_and!.
  - intros p. apply attrs_at_update_at.
  - intros a b Ha. cbn [clickToggle setTree treeContainer].
    rewrite attrs_at_update_at, decide_True, Ha by done. by intros [= <-].
  - intros p. cbn [clickToggle setTree treeContainer].
    rewrite !attrs_at_update_at. case_decide; [|done].
    destruct (attrs_at p (treeContainer page)) as [a|]; [|done].
    simpl. by rewrite negb_involutive.
Qed.

(** X8: on a page whose tree renders a forest, the level buttons expand
    exactly the elements of depth at most the bound (the roots for
    "level 1", roots and their children for "level 2") and collapse all
    others, whatever was expanded before; "expand all" expands and
    "collapse all" collapses every element; none of them touches a
    selected mark or a search class. *)
Theorem tree_controls_expand_by_depth (treeData : list Node) (page : Page)
    (bound : nat) :
  renders treeData (treeContainer page) →
  (∀ p a, attrs_at p (treeContainer (expandLevel bound page)) = Some a →
          (expanded a = true ↔ length p ≤ bound)) ∧
  (∀ p a, attrs_at p (treeContainer (expandAll page)) = Some a → expanded a = true) ∧
  (∀ p a, attrs_at p (treeContainer (collapseAll page)) = Some a → expanded a = false) ∧
  (∀ page', page' ∈ [expandLevel bound page; expandAll page; collapseAll page] →
     ∀ p, selected <$> attrs_at p (treeContainer page') =
          selected <$> attrs_at p (treeContainer page) ∧
          search_hidden <$> attrs_at p (treeContainer page') =
          search_hidden <$> attrs_at p (treeContainer page) ∧
          search_match <$> attrs_at p (treeContainer page') =
          search_match <$> attrs_at p (treeContainer page)).
Proof.
  intros Hr. split_and!.
  - intros p a. cbn [expandLevel setTree treeContainer]. rewrite attrs_at_forEach.
    destruct (attrs_at p (treeContainer page)) as [b|] eqn:Hb; [|done].
    destruct (renders_attrs _ _ _ _ Hr Hb) as (n & Hn & _ & Hlevel).
    intros [= <-]. cbn [toggleNode expanded]. rewrite Hlevel.
    rewrite bool_decide_eq_true. destruct p; [done|]. simpl. lia.
  - intros p a. cbn [expandAll setTree treeContainer]. rewrite attrs_at_forEach.
    destruct (attrs_at p (treeContainer page)); by intros [= <-].
  - intros p a. cbn [collapseAll setTree treeContainer]. rewrite attrs_at_forEach.
    destruct (attrs_at p (treeContainer page)); by intros [= <-].
  - intros page' Hin p.
    repeat (apply elem_of_cons in Hin as [->|Hin]);
      [| | |by apply elem_of_nil in Hin].
    all: cbn [expandLevel expandAll collapseAll setTree treeContainer].
    all: rewrite attrs_at_forEach.
    all: by destruct (attrs_at p (treeContainer page)).
Qed.

Lemma tree_controls_expand_by_depth_witness :
  renders sampleForest (treeContainer (load sampleForest)) ∧
  ∀ p a, attrs_at p (treeContainer (expandLevel 1 (load sampleForest))) = Some a →
         (expanded a = true ↔ length p ≤ 1).
Proof.
  split; [apply renders_load|].
  exact (proj1 (tree_controls_expand_by_depth sampleForest (load sampleForest) 1
                  (renders_load sampleForest))).
Defined.

(** ** Invariants of a session *)

Lemma related_by_fmap (R : TreeNodeEl → TreeNodeEl → Prop)
    (f : address → TreeNodeEl → TreeNodeEl) (els els' : list Element) :
  (∀ p, attrs_at p els' = f p <$> attrs_at p els) →
  (∀ p a, R a (f p a)) →
  related_by R els els'.
Proof.
  intros Hf HR p. rewrite Hf. destruct (attrs_at p els); simpl; [apply HR|done].
Qed.

Lemma related_by_trans (R S T : TreeNodeEl → TreeNodeEl → Prop)
    (els1 els2 els3 : list Element) :
  (∀ a b c, R a b → S b c → T a c) →
  related_by R els1 els2 → related_by S els2 els3 → related_by T els1 els3.
Proof.
  intros Hcomp H12 H23 p. specialize (H12 p). specialize (H23 p).
  destruct (attrs_at p els1), (attrs_at p els2), (attrs_at p els3); try done.
  by eapply Hcomp.
Qed.

(** A throwing [forEach] that returns has visited every element. *)
Lemma forEachTreeNodeM_Return (f : TreeNodeEl → Outcome TreeNodeEl)
    (els els' : list Element) :
  forEachTreeNodeM f els = Return els' →
  related_by (λ a a', f a = Return a') els els'.
Proof.
  revert els'.
  induction els as [|e rest IHkids IHrest] using Element_forest_ind; intros els'.
  { intros [= <-] p. by destruct p as [|? []]. }
  unfold forEachTreeNodeM in *. rewrite mapM_Outcome_cons.
  intros (e' & He & (rest' & Hrest & [= <-])%bind_Return)%bind_Return.
  destruct e as [a kids]. cbn [forEachUnderM] in He.
  apply bind_Return in He as (a' & Ha & (kids' & Hkids & [= <-])%bind_Return).
  specialize (IHkids _ Hkids). specialize (IHrest _ Hrest).
  intros p. destruct p as [|[|i] q]; [done| |].
  - destruct q as [|j q].
    + by rewrite !attrs_at_singleton.
    + rewrite !attrs_at_cons_cons. apply (IHkids (j :: q)).
  - specialize (IHrest (i :: q)). revert IHrest. unfold attrs_at.
    by destruct q.
Qed.

Lemma consistent_harmless (treeData : list Node) (page page' : Page) :
  consistent treeData page →
  maps page' = maps page → selectedNode page' = selectedNode page →
  related_by harmless (treeContainer page) (treeContainer page') →
  consistent treeData page'.
Proof.
  intros ([Hmaps Hr] & Hstep & Hsel & Hone) Hmaps' Hsel' Hrel.
  split_and!.
  - split; [congruence|]. intros p. specialize (Hr p). specialize (Hrel p).
    destruct (attrs_at p (treeContainer page)) as [a|],
             (attrs_at p (treeContainer page')) as [a'|]; try done.
    all: try destruct Hrel as (-> & -> & _).
    all: by destruct (node_at p treeData).
  - intros p a' Ha'. specialize (Hrel p). rewrite Ha' in Hrel.
    destruct (attrs_at p (treeContainer page)) as [a|] eqn:Ha; [|done].
    destruct Hrel as (_ & _ & _ & Hkeep). apply Hkeep. by eapply Hstep.
  - split.
    + intros p a' Ha' Hselected. pose proof (Hrel p) as Hp. rewrite Ha' in Hp.
      destruct (attrs_at p (treeContainer page)) as [a|] eqn:Ha; [|done].
      destruct Hp as (-> & _ & Hs & _). rewrite Hsel'. eapply Hsel; [done|].
      congruence.
    + intros p q a' b' Ha' Hb' Hsa Hsb.
      pose proof (Hrel p) as Hp. pose proof (Hrel q) as Hq.
      rewrite Ha' in Hp. rewrite Hb' in Hq.
      destruct (attrs_at p (treeContainer page)) as [a|] eqn:Ha; [|done].
      destruct (attrs_at q (treeContainer page)) as [b|] eqn:Hb; [|done].
      destruct Hp as (_ & _ & Hs1 & _). destruct Hq as (_ & _ & Hs2 & _).
      eapply Hone; [done|done|congruence|congruence].
Qed.

Lemma showDetail_Return (fuel : nat) (nodeId : jsstring) (page page' : Page) :
  showDetail fuel nodeId page = Return page' →
  maps page' = maps page ∧ selectedNode page' = selectedNode page ∧
  treeContainer page' = treeContainer page.
Proof.
  unfold showDetail. destruct (nodeMap (maps page) !! nodeId); [|by intros [= <-]].
  intros (? & _ & (? & _ & (? & _ & (? & _ & [= <-])%bind_Return)%bind_Return)
            %bind_Return)%bind_Return.
  done.
Qed.

Lemma consistent_load (treeData : list Node) : consistent treeData (load treeData).
Proof.
  split_and!.
  - apply displays_load.
  - intros p a. cbn [load treeContainer]. rewrite attrs_at_renderTree.
    destruct (node_at p treeData); by intros [= <-].
  - split.
    + intros p a. cbn [load treeContainer]. rewrite attrs_at_renderTree.
      destruct (node_at p treeData); by intros [= <-].
    + intros p q a b. cbn [load treeContainer]. rewrite attrs_at_renderTree.
      destruct (node_at p treeData); by intros [= <-].
Qed.

Lemma consistent_selectNode (treeData : list Node) (page page' : Page)
    (fuel : nat) (nodeId : jsstring) :
  consistent treeData page → selectNode fuel nodeId page = Return page' →
  consistent treeData page'.
Proof.
  intros ([Hmaps Hr] & Hstep & _) Hrun. unfold selectNode in Hrun.
  apply showDetail_Return in Hrun as (Hmaps' & Hsel' & Htree').
  cbn [maps selectedNode treeContainer] in *.
  set (cleared := forEachTreeNode (set_selected false) (treeContainer page)) in *.
  assert (∃ f : address → TreeNodeEl → TreeNodeEl,
            (∀ p, attrs_at p (treeContainer page') = f p <$> attrs_at p (treeContainer page)) ∧
            (∀ p a, data_id (f p a) = data_id a ∧ data_level (f p a) = data_level a ∧
                    (toggle_expanded a = expanded a →
                     toggle_expanded (f p a) = expanded (f p a))) ∧
            (∀ p a, attrs_at p (treeContainer page) = Some a →
                    selected (f p a) = true → data_id a = nodeId) ∧
            (∀ p q a b, selected (f p a) = true → selected (f q b) = true → p = q))
    as (f & Hf & Hframe & Hid & Hone).
  { rewrite Htree'. destruct (querySelector nodeId cleared) as [path|] eqn:Hfound.
    - assert (path ≠ []) as Hne.
      { unfold querySelector in Hfound.
        destruct (first_answer _ _ _) as [[]|]; by simplify_eq/=. }
      apply querySelector_Some in Hfound as (c & Hc & Hidc).
      unfold cleared in Hc. rewrite attrs_at_forEach in Hc.
      exists (λ p a, if decide (p = path) then set_selected true a
                     else if decide (above p path)
                          then toggleNode (Some true) (set_selected false a)
                          else set_selected false a).
      split_and!.
      + intros p. by apply attrs_at_selectNode_tree.
      + intros p a. by repeat case_decide.
      + intros p a Ha. case_decide as Hp; [|by case_decide]. subst p.
        rewrite Ha in Hc. injection Hc as <-. done.
      + intros p q a b. repeat case_decide; done || congruence.
    - exists (λ _, set_selected false). split_and!; try done.
      intros p. apply attrs_at_forEach. }
  split_and!.
  - split; [congruence|]. eapply renders_flags; [done|]. intros p.
    exists (f p). split; [done|]. intros a. by destruct (Hframe p a) as (? & ? & _).
  - intros p a'. rewrite Hf.
    destruct (attrs_at p (treeContainer page)) as [a|] eqn:Ha; [|done].
    intros [= <-]. apply Hframe. by eapply Hstep.
  - split.
    + intros p a'. rewrite Hf, Hsel'.
      destruct (attrs_at p (treeContainer page)) as [a|] eqn:Ha; [|done].
      intros [= <-] Hs. f_equal. destruct (Hframe p a) as (-> & _). symmetry.
      by eapply Hid.
    + intros p q a' b'. rewrite !Hf.
      destruct (attrs_at p (treeContainer page)) as [a|]; [|done].
      destruct (attrs_at q (treeContainer page)) as [b|]; [|done].
      intros [= <-] [= <-]. apply Hone.
Qed.

Section SessionProofs.
Variable toLowerCase : jsstring → jsstring.

Lemma markNode_harmless (nodes : gmap jsstring Node) (lowerTerm : jsstring)
    (matchingIds : gset jsstring) (a a' : TreeNodeEl) :
  markNode toLowerCase nodes lowerTerm matchingIds a = Return a' → harmless a a'.
Proof.
  unfold markNode. case_decide.
  - destruct (getNode nodes (data_id a)) as [node| |]; [|done..].
    cbn [mbind Outcome_bind].
    destruct (matchesTerm toLowerCase lowerTerm node); by intros [= <-].
  - by intros [= <-].
Qed.

Lemma search_harmless (fuel : nat) (term : jsstring) (page page' : Page) :
  search toLowerCase fuel term page = Return page' →
  maps page' = maps page ∧ selectedNode page' = selectedNode page ∧
  detailView page' = detailView page ∧
  related_by harmless (treeContainer page) (treeContainer page').
Proof.
  unfold search. case_decide.
  - intros [= <-]. split_and!; try done.
    eapply (related_by_fmap _ (λ _, set_search false false)); [|done].
    intros p. apply attrs_at_forEach.
  - intros (ids & _ & (marked & Hmarked & [= <-])%bind_Return)%bind_Return.
    split_and!; try done. cbn [treeContainer].
    apply forEachTreeNodeM_Return in Hmarked.
    eapply related_by_trans; [| |exact Hmarked].
    + intros a b c Hab Hbc. apply markNode_harmless in Hbc.
      instantiate (1 := harmless) in Hab.
      destruct Hab as (? & ? & ? & Hab), Hbc as (? & ? & ? & Hbc).
      split_and!; try congruence. intros. by apply Hbc, Hab.
    + eapply (related_by_fmap _ (λ _, set_search false false)); [|done].
      intros p. apply attrs_at_forEach.
Qed.

Lemma consistent_handle (treeData : list Node) (fuel : nat)
    (event : Event) (page page' : Page) :
  consistent treeData page →
  handle toLowerCase fuel event page = Return page' →
  consistent treeData page'.
Proof.
  intros Hcons. destruct event; cbn [handle].
  - by apply consistent_selectNode.
  - intros [= <-]. eapply consistent_harmless; [done|done|done|].
    cbn [clickToggle setTree treeContainer].
    eapply (related_by_fmap _
              (λ p a, if decide (p = path) then toggleNode None a else a)).
    + intros p. rewrite attrs_at_update_at.
      case_decide; by destruct (attrs_at p (treeContainer page)).
    + intros p a. by case_decide.
  - intros (? & ? & _ & ?)%search_harmless. by eapply consistent_harmless.
  - intros (? & ? & _ & ?)%search_harmless. by eapply consistent_harmless.
  - intros [= <-]. eapply consistent_harmless; [done|done|done|].
    eapply (related_by_fmap _ (λ _, toggleNode (Some true))); [|done].
    intros p. apply attrs_at_forEach.
  - intros [= <-]. eapply consistent_harmless; [done|done|done|].
    eapply (related_by_fmap _ (λ _, toggleNode (Some false))); [|done].
    intros p. apply attrs_at_forEach.
  - intros [= <-]. eapply consistent_harmless; [done|done|done|].
    eapply (related_by_fmap _
              (λ _ a, toggleNode (Some (bool_decide (data_level a < 1))) a)); [|done].
    intros p. apply attrs_at_forEach.
  - intros [= <-]. eapply consistent_harmless; [done|done|done|].
    eapply (related_by_fmap _
              (λ _ a, toggleNode (Some (bool_decide (data_level a < 2))) a)); [|done].
    intros p. apply attrs_at_forEach.
Qed.

Lemma session_snoc (fuel : nat) (events : list Event) (event : Event) (page : Page) :
  session toLowerCase fuel (events ++ [event]) page =
    p ← session toLowerCase fuel events page; handle toLowerCase fuel event p.
Proof. unfold session. by rewrite foldl_app. Qed.

Lemma consistent_session (treeData : list Node) (fuel : nat)
    (events : list Event) (page : Page) :
  session toLowerCase fuel events (load treeData) = Return page →
  consistent treeData page.
Proof.
  revert page. induction events as [|event events IH] using rev_ind; intros page.
  - intros [= <-]. apply consistent_load.
  - rewrite session_snoc. intros (mid & Hmid & Hlast)%bind_Return.
    eapply consistent_handle; [|done]. by apply IH.
Qed.



(** X11: in every state a session reaches the arrow of each toggle is turned
    exactly when its node is expanded. *)
Theorem session_keeps_toggles_in_step (treeData : list Node) (fuel : nat)
    (events : list Event) (page : Page) :
  session toLowerCase fuel events (load treeData) = Return page →
  ∀ p a, attrs_at p (treeContainer page) = Some a →
         toggle_expanded a = expanded a.
Proof. intros Hrun. by destruct (consistent_session _ _ _ _ Hrun) as (_ & ? & _). Qed.

End SessionProofs.

Lemma sampleSession_returns :
  ∃ page, session toLowerCaseBasicLatin 2 sampleSession (load sampleForest) = Return page.
Proof. vm_compute. by eexists. Qed.



Lemma session_keeps_toggles_in_step_witness :
  ∃ page,
    session toLowerCaseBasicLatin 2 sampleSession (load sampleForest) = Return page ∧
    ∀ p a, attrs_at p (treeContainer page) = Some a →
           toggle_expanded a = expanded a.
Proof.
  destruct sampleSession_returns as [page Hrun]. exists page. split; [exact Hrun|].
  exact (session_keeps_toggles_in_step toLowerCaseBasicLatin
           sampleForest 2 sampleSession page Hrun).
Defined.

(** ** Counting *)

Lemma countDescendants_unfold (node : Node) :
  countDescendants node =
    foldl (λ sum child, sum + 1 + countDescendants child) 0 (children node).
Proof. by destruct node. Qed.

Lemma foldl_add_one {A} (f : A → nat) (l : list A) (start : nat) :
  foldl (λ sum x, sum + 1 + f x) start l = start + length l + sum_list (f <$> l).
Proof.
  revert start. induction l as [|x l IH]; intros start; simpl; [lia|].
  rewrite IH. change (list_fmap A nat f l) with (f <$> l). lia.
Qed.

Lemma countItems_sum (items : list Node) :
  countItems items = length items + sum_list (countItems_children <$> items).
Proof. unfold countItems. apply foldl_add. Qed.

Lemma countDescendants_flatten (node : Node) :
  countDescendants node = length (flatten (children node)).
Proof.
  assert (∀ nodes : list Node,
            (λ nodes, Forall (λ n, countDescendants n = length (flatten (children n)))
                             nodes) nodes) as Hall.
  { intros nodes. induction nodes as [|n rest IHch IHrest] using forest_ind.
    - constructor.
    - constructor; [|done]. rewrite countDescendants_unfold, foldl_add_one.
      clear IHrest. induction (children n) as [|c ch IH]; [done|].
      apply Forall_cons in IHch as [Hc Hch]. rewrite flatten_cons, fmap_cons.
      change (sum_list (?x :: ?l)) with (x + sum_list l).
      specialize (IH Hch). cbn [length] in *. rewrite length_app, Hc. lia. }
  specialize (Hall [node]). by apply Forall_cons in Hall as [? _].
Qed.

(** X12: the two counters of the source agree: [countDescendants(node)] is
    [countItems(node.children)], the number of nodes strictly below the
    node; [countItems] of a forest is the number of its nodes at all
    depths, it adds up over concatenation, is one per root plus the
    descendants of each root, and is never below the number of roots. *)
Theorem countItems_counts_every_node (items more : list Node) (node : Node) :
  countDescendants node = countItems (children node) ∧
  countItems items = length (flatten items) ∧
  countItems (items ++ more) = countItems items + countItems more ∧
  countItems items = sum_list ((λ root, 1 + countDescendants root) <$> items) ∧
  length items ≤ countItems items.
Proof.
  split_and!.
  - by rewrite countDescendants_flatten, countItems_flatten.
  - apply countItems_flatten.
  - rewrite !countItems_flatten. unfold flatten.
    by rewrite bind_app, length_app.
  - induction items as [|root rest IH]; [done|].
    rewrite countItems_cons, fmap_cons.
    change (sum_list (?x :: ?l)) with (x + sum_list l).
    rewrite <- IH, countDescendants_flatten, countItems_flatten. lia.
  - rewrite countItems_sum. lia.
Qed.

(** ** [buildMaps] on any forest *)

Lemma lookup_foldl_write_last {V} (l : list (jsstring * V)) (m : gmap jsstring V)
    (k : jsstring) :
  foldl write m l !! k =
    match last (filter (λ kv, kv.1 = k) l) with
    | Some kv => Some kv.2
    | None => m !! k
    end.
Proof.
  revert m. induction l as [|[k' v] l IH] using rev_ind; intros m; [done|].
  rewrite foldl_app, filter_app. cbn [foldl]. unfold write at 1. cbn [fst snd].
  rewrite filter_cons, filter_nil. cbn [fst].
  destruct (decide (k' = k)) as [->|Hne].
  - by rewrite last_snoc, lookup_insert_eq.
  - rewrite app_nil_r, lookup_insert_ne by done. apply IH.
Qed.

Lemma size_foldl_write_le {V} (l : list (jsstring * V)) (m : gmap jsstring V) :
  size (foldl write m l) ≤ size m + length l.
Proof.
  revert m. induction l as [|[k v] l IH]; intros m; simpl; [lia|].
  etrans; [apply IH|]. unfold write. cbn [fst snd].
  destruct (m !! k) eqn:Hk.
  - rewrite map_size_insert_Some by done. lia.
  - rewrite map_size_insert_None by done. lia.
Qed.

Lemma dom_foldl_write {V} (l : list (jsstring * V)) (m : gmap jsstring V) :
  dom (foldl write m l) = dom m ∪ list_to_set l.*1.
Proof.
  revert m. induction l as [|[k v] l IH]; intros m; simpl.
  - set_solver.
  - rewrite IH. unfold write. cbn [fst snd]. rewrite dom_insert_L. set_solver.
Qed.

Lemma size_list_to_set_cons (x : jsstring) (l : list jsstring) :
  size (list_to_set (x :: l) : gset jsstring) =
    if decide (x ∈ l) then size (list_to_set l : gset jsstring)
    else S (size (list_to_set l : gset jsstring)).
Proof.
  cbn [list_to_set]. case_decide as Hin.
  - f_equal. set_solver.
  - rewrite size_union, size_singleton by set_solver. done.
Qed.

Lemma size_list_to_set_length (l : list jsstring) :
  size (list_to_set l : gset jsstring) ≤ length l.
Proof.
  induction l as [|x l IH]; [done|].
  rewrite size_list_to_set_cons. cbn [length]. case_decide; lia.
Qed.

Lemma size_list_to_set_NoDup (l : list jsstring) :
  size (list_to_set l : gset jsstring) = length l ↔ NoDup l.
Proof.
  split; [|apply size_list_to_set].
  induction l as [|x l IH]; [constructor|].
  pose proof (size_list_to_set_length l) as Hle.
  rewrite size_list_to_set_cons. cbn [length]. case_decide as Hin; [lia|].
  intros Hsize. constructor; [done|]. apply IH. lia.
Qed.

(** X13: [buildMaps] on any forest, ids repeated or not: under each id
    [nodeMap] holds the last node with that id in depth-first order (the
    later registration silently wins), the ids it holds are exactly the ids
    of the forest, and it has as many entries as the forest has nodes
    exactly when the ids are pairwise distinct, fewer otherwise. *)
Theorem buildMaps_last_registration_wins (treeData : list Node) :
  (∀ k, nodeMap (maps (load treeData)) !! k =
        last (filter (λ n, id n = k) (flatten treeData))) ∧
  dom (nodeMap (maps (load treeData))) = list_to_set (id <$> flatten treeData) ∧
  size (nodeMap (maps (load treeData))) ≤ countItems treeData ∧
  (size (nodeMap (maps (load treeData))) = countItems treeData ↔ unique_ids treeData).
Proof.
  assert (dom (nodeMap (maps (load treeData))) =
            (list_to_set (id <$> flatten treeData) : gset jsstring)) as Hdom.
  { rewrite load_nodeMap, dom_foldl_write, nodeWrites_keys. set_solver. }
  split_and!.
  - intros k. rewrite load_nodeMap, lookup_foldl_write_last. unfold nodeWrites.
    clear Hdom.
    induction (flatten treeData) as [|n l IH] using rev_ind; [done|].
    rewrite fmap_app, !filter_app, fmap_cons, fmap_nil, !filter_cons, !filter_nil.
    cbn [fst]. destruct (decide (id n = k)).
    + by rewrite !last_snoc.
    + by rewrite !app_nil_r.
  - done.
  - rewrite <- size_dom, Hdom, countItems_flatten.
    etrans; [apply size_list_to_set_length|]. by rewrite length_fmap.
  - rewrite <- size_dom, Hdom, countItems_flatten.
    rewrite <- (length_fmap id (flatten treeData)). apply size_list_to_set_NoDup.
Qed.

(** ** The path loop on any parent map *)

Lemma getPath_loop_chain (parents : gmap jsstring jsstring) (fuel : nat)
    (current : jsstring) (below result : list jsstring) :
  whileHasParent fuel parents (λ c path, c :: path) current (current :: below)
    = Return result →
  ∃ pre top,
    result = pre ++ current :: below ∧ length pre ≤ fuel ∧
    head result = Some top ∧ parents !! top = None ∧
    ∀ k a b, k < length pre → result !! k = Some a → result !! S k = Some b →
             parents !! b = Some a.
Proof.
  revert current below. induction fuel as [|fuel IH]; intros current below.
  - simpl. destruct (parents !! current) eqn:Hc; [done|]. intros [= <-].
    exists [], current. split_and!; try done.
    all: try (simpl; lia).
    all: intros k a b Hk; simpl in Hk; lia.
  - simpl. destruct (parents !! current) as [p|] eqn:Hc.
    + intros (pre & top & -> & Hlen & Htop & Hnone & Hlinks)%IH.
      exists (pre ++ [p]), top. rewrite <- app_assoc.
      split; [done|]. split; [rewrite length_app; simpl; lia|].
      split; [done|]. split; [done|].
      intros k a b Hk Ha Hb. rewrite length_app in Hk. simpl in Hk.
      destruct (decide (k < length pre)) as [Hlt|Hge]; [by eapply Hlinks|].
      assert (k = length pre) as -> by lia.
      rewrite lookup_app_r in Ha, Hb by lia.
      replace (length pre - length pre) with 0 in Ha by lia.
      replace (S (length pre) - length pre) with 1 in Hb by lia.
      simpl in Ha, Hb. by simplify_eq.
    + intros [= <-]. exists [], current. split_and!; try done.
      all: try (simpl; lia).
    all: intros k a b Hk; simpl in Hk; lia.
Qed.

(** X14: whatever the parent map, a path [getPath] returns ends with the id
    asked for, starts with an id that has no parent entry, links each entry
    to the next by one parent step, and is no longer than the turns the
    loop took plus one; an id without parent entry gives the path of that
    id alone. *)
Theorem getPath_returns_parent_chain (parents : gmap jsstring jsstring)
    (fuel : nat) (nodeId : jsstring) (crumbs : list jsstring) :
  getPath fuel parents nodeId = Return crumbs →
  last crumbs = Some nodeId ∧
  (∃ top, head crumbs = Some top ∧ parents !! top = None) ∧
  (∀ k a b, crumbs !! k = Some a → crumbs !! S k = Some b →
            parents !! b = Some a) ∧
  length crumbs ≤ S fuel ∧
  (parents !! nodeId = None → crumbs = [nodeId]).
Proof.
  unfold getPath. intros Hrun.
  pose proof Hrun as (pre & top & -> & Hlen & Htop & Hnone & Hlinks)%getPath_loop_chain.
  split_and!.
  - apply last_snoc.
  - by exists top.
  - intros k a b Ha Hb. eapply Hlinks; [|done..].
    apply lookup_lt_Some in Hb. rewrite length_app in Hb. simpl in Hb. lia.
  - rewrite length_app. simpl. lia.
  - intros Hroot. rewrite whileHasParent_None in Hrun by done. by injection Hrun.
Qed.

Lemma getPath_returns_parent_chain_witness :
  getPath 2 (parentMap (maps (load sampleForest))) (str "A1a") =
    Return [str "A"; str "A1"; str "A1a"] ∧
  last [str "A"; str "A1"; str "A1a"] = Some (str "A1a") ∧
  length [str "A"; str "A1"; str "A1a"] ≤ S 2.
Proof.
  assert (getPath 2 (parentMap (maps (load sampleForest))) (str "A1a") =
            Return [str "A"; str "A1"; str "A1a"]) as Hrun by (by vm_compute).
  destruct (getPath_returns_parent_chain _ _ _ _ Hrun) as (Hlast & _ & _ & Hlen & _).
  split_and!; [exact Hrun|exact Hlast|exact Hlen].
Defined.

(** ** What the transform guarantees about its nodes *)














(** ** Theme *)

Lemma savedTheme_nonempty (ui : ThemeState) : savedTheme ui ≠ [].
Proof.
  unfold savedTheme. destruct (localStorage ui !! str "theme") as [[|c s]|]; done.
Qed.

Lemma savedTheme_setTheme (theme : jsstring) (ui : ThemeState) :
  savedTheme (setTheme theme ui) = if decide (theme = []) then str "light" else theme.
Proof.
  unfold savedTheme, setTheme. cbn [localStorage]. rewrite lookup_insert_eq.
  by destruct theme.
Qed.

(** X18: [setTheme] leaves exactly one of the two buttons active, the dark
    one only for the theme ["dark"], and touches no other storage entry;
    the theme it stores is the one the next page load applies, except that
    the empty string comes back as ["light"]; a load applies what it finds
    and a second load changes nothing. *)
Theorem setTheme_round_trip (theme : jsstring) (ui : ThemeState) :
  lightBtn_active (setTheme theme ui) = negb (darkBtn_active (setTheme theme ui)) ∧
  (darkBtn_active (setTheme theme ui) = true ↔ theme = str "dark") ∧
  (∀ key, key ≠ str "theme" →
          localStorage (setTheme theme ui) !! key = localStorage ui !! key) ∧
  body_theme (initTheme (setTheme theme ui)) =
    Some (if decide (theme = []) then str "light" else theme) ∧
  localStorage (initTheme ui) !! str "theme" = body_theme (initTheme ui) ∧
  initTheme (initTheme ui) = initTheme ui.
Proof.
  split_and!.
  - cbn [setTheme lightBtn_active darkBtn_active].
    apply bool_decide_not.
  - cbn [setTheme darkBtn_active]. apply bool_decide_eq_true.
  - intros key Hkey. cbn [setTheme localStorage]. by rewrite lookup_insert_ne.
  - change (body_theme (initTheme ?x)) with (Some (savedTheme x)).
    by rewrite (savedTheme_setTheme theme ui).
  - unfold initTheme. cbn [setTheme body_theme localStorage]. by rewrite lookup_insert_eq.
  - unfold initTheme. rewrite savedTheme_setTheme.
    rewrite decide_False by apply savedTheme_nonempty.
    unfold setTheme. cbn. by rewrite insert_insert_eq.
Qed.

(** ** FAQ accordion *)

(** X20: after a click on the question of item [i] no other item is open, and
    item [i] is open exactly when it was closed before: at most one item
    is ever open, and a click on the open item closes everything. *)
Theorem clickQuestion_one_open (i : nat) (items : list bool) :
  length (clickQuestion i items) = length items ∧
  ∀ j, clickQuestion i items !! j = Some true ↔ j = i ∧ items !! i = Some false.
Proof.
  unfold clickQuestion. split; [apply length_imap|].
  intros j. rewrite list_lookup_imap.
  destruct (items !! j) as [active|] eqn:Hj; simpl.
  - case_decide as Hji.
    + subst. rewrite Hj. destruct active; naive_solver.
    + naive_solver.
  - split; [done|]. intros [-> Hi]. congruence.
Qed.

(** ** Hero carousel *)

Lemma goToSlide_currentSlide (index : Z) (c : Carousel) :
  currentSlide (goToSlide index c) =
    let n := Z.of_nat (length (slides c)) in
    let wrapped := if (index <? 0)%Z then (n - 1)%Z else index in
    if (wrapped >=? n)%Z then 0%Z else wrapped.
Proof. reflexivity. Qed.

Lemma goToSlide_length (index : Z) (c : Carousel) :
  length (slides (goToSlide index c)) = length (slides c).
Proof. cbn [goToSlide slides]. apply length_imap. Qed.

Lemma nextSlide_mod (c : Carousel) :
  slides c ≠ [] →
  (0 ≤ currentSlide c < Z.of_nat (length (slides c)))%Z →
  currentSlide (nextSlide c) =
    ((currentSlide c + 1) mod Z.of_nat (length (slides c)))%Z.
Proof.
  intros Hne Hrange. unfold nextSlide. rewrite goToSlide_currentSlide. cbn zeta.
  destruct (Z.ltb_spec (currentSlide c + 1) 0); [lia|].
  destruct (Z.geb_spec (currentSlide c + 1) (Z.of_nat (length (slides c)))).
  - replace (currentSlide c + 1)%Z with (Z.of_nat (length (slides c))) by lia.
    by rewrite Z_mod_same_full.
  - by rewrite Z.mod_small by lia.
Qed.

Lemma prevSlide_mod (c : Carousel) :
  slides c ≠ [] →
  (0 ≤ currentSlide c < Z.of_nat (length (slides c)))%Z →
  currentSlide (prevSlide c) =
    ((currentSlide c - 1) mod Z.of_nat (length (slides c)))%Z.
Proof.
  intros Hne Hrange. unfold prevSlide. rewrite goToSlide_currentSlide. cbn zeta.
  destruct (Z.ltb_spec (currentSlide c - 1) 0).
  - assert (currentSlide c = 0)%Z as -> by lia.
    destruct (Z.geb_spec (Z.of_nat (length (slides c)) - 1)
                         (Z.of_nat (length (slides c)))); [lia|].
    apply Z.mod_unique with (q := (-1)%Z); lia.
  - destruct (Z.geb_spec (currentSlide c - 1) (Z.of_nat (length (slides c)))); [lia|].
    by rewrite Z.mod_small by lia.
Qed.

Lemma goToSlide_in_range (index : Z) (c : Carousel) :
  slides c ≠ [] →
  (0 ≤ currentSlide (goToSlide index c) < Z.of_nat (length (slides c)))%Z.
Proof.
  intros Hne. rewrite goToSlide_currentSlide. cbn zeta.
  assert (0 < length (slides c)) by (destruct (slides c); simpl; [done|lia]).
  destruct (Z.ltb_spec index 0);
    repeat match goal with |- context [(?a >=? ?b)%Z] => destruct (Z.geb_spec a b) end;
    lia.
Qed.

Lemma iter_nextSlide (k : nat) (c : Carousel) :
  slides c ≠ [] →
  (0 ≤ currentSlide c < Z.of_nat (length (slides c)))%Z →
  length (slides (Nat.iter k nextSlide c)) = length (slides c) ∧
  currentSlide (Nat.iter k nextSlide c) =
    ((currentSlide c + Z.of_nat k) mod Z.of_nat (length (slides c)))%Z.
Proof.
  intros Hne Hrange. induction k as [|k [IHlen IHcur]].
  - simpl. split; [done|]. rewrite Z.add_0_r. by rewrite Z.mod_small.
  - change (Nat.iter (S k) nextSlide c) with (nextSlide (Nat.iter k nextSlide c)).
    split.
    + unfold nextSlide at 1. by rewrite goToSlide_length.
    + assert (slides (Nat.iter k nextSlide c) ≠ []) as Hne'.
      { intros Hnil. rewrite Hnil in IHlen. by destruct (slides c). }
      rewrite nextSlide_mod, IHlen, IHcur; [|done|].
      * rewrite Zplus_mod_idemp_l. f_equal. lia.
      * rewrite IHlen, IHcur. apply Z.mod_pos_bound.
        destruct (slides c); simpl; [done|lia].
Qed.

(** X21: with at least one slide, [goToSlide] always lands on a slide that
    exists (an index below zero wraps to the last slide, one past the end
    to the first), makes that slide and no other active, and marks the
    indicator of the same number; [nextSlide] and [prevSlide] step
    cyclically and undo each other, and as many [nextSlide] as there are
    slides come back to the start.  On the controls, [dark-theme] is set
    exactly on slides 1 and 2 and the background class of the current slide
    is present; any other background class left is a stale one of a slide
    beyond the third, which [goToSlide] never removes. *)
Theorem goToSlide_wraps_and_marks (index : Z) (c : Carousel) :
  slides c ≠ [] →
  let n := length (slides c) in
  let c' := goToSlide index c in
  (0 ≤ currentSlide c' < Z.of_nat n)%Z ∧
  ((0 ≤ index < Z.of_nat n)%Z → currentSlide c' = index) ∧
  ((index < 0)%Z → currentSlide c' = (Z.of_nat n - 1)%Z) ∧
  ((Z.of_nat n ≤ index)%Z → currentSlide c' = 0%Z) ∧
  length (slides c') = n ∧
  (∀ i, slides c' !! i = Some true ↔ i < n ∧ Z.of_nat i = currentSlide c') ∧
  (∀ i, indicators c' !! i = Some true ↔
        i < length (indicators c) ∧ Z.of_nat i = currentSlide c') ∧
  ((0 ≤ currentSlide c < Z.of_nat n)%Z →
     currentSlide (nextSlide c) = ((currentSlide c + 1) mod Z.of_nat n)%Z ∧
     currentSlide (prevSlide c) = ((currentSlide c - 1) mod Z.of_nat n)%Z ∧
     currentSlide (prevSlide (nextSlide c)) = currentSlide c ∧
     currentSlide (nextSlide (prevSlide c)) = currentSlide c ∧
     currentSlide (Nat.iter n nextSlide c) = currentSlide c) ∧
  (∀ k, controls c = Some k →
     ∃ k', controls c' = Some k' ∧
           (dark_theme k' = true ↔ currentSlide c' = 1%Z ∨ currentSlide c' = 2%Z) ∧
           currentSlide c' ∈ slide_bg k' ∧
           ∀ j, j ∈ slide_bg k' →
                j = currentSlide c' ∨ (j ∈ slide_bg k ∧ ¬ (0 ≤ j ≤ 2)%Z)).
Proof.
  intros Hne n c'.
  assert (0 < n) as Hn by (unfold n; destruct (slides c); simpl; [done|lia]).
  assert (∀ (flags : list bool) (target : Z) (i : nat),
            imap (λ i _, bool_decide (Z.of_nat i = target)) flags !! i = Some true ↔
            i < length flags ∧ Z.of_nat i = target) as Hmark.
  { intros flags target i. rewrite list_lookup_imap.
    destruct (flags !! i) as [b|] eqn:Hi; simpl.
    - apply lookup_lt_Some in Hi. split.
      + intros [= ?%bool_decide_eq_true]. done.
      + intros [_ ?]. f_equal. by apply bool_decide_eq_true.
    - apply lookup_ge_None in Hi. split; [done|]. lia. }
  split_and!.
  - by apply goToSlide_in_range.
  - by apply goToSlide_in_range.
  - intros Hin. unfold c'. rewrite goToSlide_currentSlide. cbn zeta. fold n.
    destruct (Z.ltb_spec index 0); [lia|].
    destruct (Z.geb_spec index (Z.of_nat n)); lia.
  - intros Hneg. unfold c'. rewrite goToSlide_currentSlide. cbn zeta. fold n.
    destruct (Z.ltb_spec index 0); [|lia].
    destruct (Z.geb_spec (Z.of_nat n - 1) (Z.of_nat n)); lia.
  - intros Hpast. unfold c'. rewrite goToSlide_currentSlide. cbn zeta. fold n.
    destruct (Z.ltb_spec index 0); [lia|].
    destruct (Z.geb_spec index (Z.of_nat n)); lia.
  - apply goToSlide_length.
  - intros i. apply Hmark.
  - intros i. apply Hmark.
  - intros Hrange.
    pose proof (nextSlide_mod c Hne Hrange) as Hnext.
    pose proof (prevSlide_mod c Hne Hrange) as Hprev.
    fold n in Hnext, Hprev.
    assert (∀ d, length (slides d) = n → slides d ≠ []) as Hlen.
    { intros d Hd Hnil. rewrite Hnil in Hd. simpl in Hd. lia. }
    split_and!; [done|done| | |].
    + rewrite prevSlide_mod; unfold nextSlide; rewrite ?goToSlide_length;
        fold (nextSlide c); fold n.
      * rewrite Hnext, Zminus_mod_idemp_l.
        replace (currentSlide c + 1 - 1)%Z with (currentSlide c) by lia.
        by apply Z.mod_small.
      * apply Hlen, goToSlide_length.
      * rewrite Hnext. apply Z.mod_pos_bound. lia.
    + rewrite nextSlide_mod; unfold prevSlide; rewrite ?goToSlide_length;
        fold (prevSlide c); fold n.
      * rewrite Hprev, Zplus_mod_idemp_l.
        replace (currentSlide c - 1 + 1)%Z with (currentSlide c) by lia.
        by apply Z.mod_small.
      * apply Hlen, goToSlide_length.
      * rewrite Hprev. apply Z.mod_pos_bound. lia.
    + destruct (iter_nextSlide n c Hne Hrange) as [_ ->]. fold n.
      rewrite <- (Z.mul_1_l (Z.of_nat n)) at 1. rewrite Z_mod_plus_full.
      by apply Z.mod_small.
  - intros k Hk. unfold c'. cbn [goToSlide controls]. rewrite Hk. simpl.
    eexists. split; [done|]. cbn [dark_theme slide_bg].
    split_and!.
    + rewrite bool_decide_eq_true. unfold darkSlides.
      rewrite !elem_of_cons, elem_of_nil. naive_solver.
    + set_solver.
    + intros j [->%elem_of_singleton|[Hj Hnot]%elem_of_difference]%elem_of_union;
        [by left|].
      right. split; [done|]. intros Hrange.
      apply Hnot. assert (j = 0 ∨ j = 1 ∨ j = 2)%Z as [->|[->| ->]] by lia; set_solver.
Qed.

Lemma goToSlide_wraps_and_marks_witness :
  let c := MkCarousel [true; false; false] [true; false; false] None 0 in
  slides c ≠ [] ∧
  currentSlide (goToSlide (-1) c) = 2%Z ∧
  currentSlide (goToSlide 3 c) = 0%Z.
Proof.
  intros c.
  assert (slides c ≠ []) as Hne by done.
  split; [exact Hne|].
  destruct (goToSlide_wraps_and_marks (-1) c Hne) as (_ & _ & Hneg & _).
  destruct (goToSlide_wraps_and_marks 3 c Hne) as (_ & _ & _ & Hpast & _).
  split; [apply Hneg; lia|apply Hpast; simpl; lia].
Defined.

(** ** Timers: autoplay and the debounced search *)

Lemma only_current_restart (current : option nat) (t : Timers) :
  only_current current t →
  alive (setTimer (clearTimer current t)).2 = {[S (handed_out t)]} ∧
  (setTimer (clearTimer current t)).1 = S (handed_out t).
Proof.
  intros Honly. destruct current as [h|]; cbn.
  - split; [|done]. apply set_eq. intros x.
    rewrite elem_of_union, elem_of_difference, !elem_of_singleton.
    split; [|by left]. intros [?|[Hx Hne]]; [done|].
    apply Honly in Hx. congruence.
  - split; [|done]. apply set_eq. intros x.
    rewrite elem_of_union, !elem_of_singleton.
    split; [|by left]. intros [?|Hx]; [done|]. by apply Honly in Hx.
Qed.

Lemma only_current_startAutoplay (h : Hero) :
  only_current (autoplayInterval h) (hero_timers h) →
  only_current (autoplayInterval (startAutoplay h)) (hero_timers (startAutoplay h)) ∧
  alive (hero_timers (startAutoplay h)) = {[S (handed_out (hero_timers h))]}.
Proof.
  intros Honly. destruct (only_current_restart _ _ Honly) as [Halive Hhandle].
  unfold startAutoplay, stopAutoplay. cbn [hero_timers autoplayInterval carousel].
  destruct (setTimer _) as [handle timers] eqn:Hset. cbn in *. subst.
  split; [|done]. intros x. rewrite Halive. by intros ->%elem_of_singleton.
Qed.

Lemma only_current_stopAutoplay (h : Hero) :
  only_current (autoplayInterval h) (hero_timers h) →
  alive (hero_timers (stopAutoplay h)) = ∅.
Proof.
  intros Honly. unfold stopAutoplay. cbn [hero_timers].
  destruct (autoplayInterval h) as [x|] eqn:Hx; cbn.
  - apply set_eq. intros y. rewrite elem_of_difference, elem_of_singleton.
    split; [|by intros ?%elem_of_empty]. intros [Hy Hne]. apply Honly in Hy.
    congruence.
  - apply set_eq. intros y. split; [|by intros ?%elem_of_empty].
    intros Hy. by apply Honly in Hy.
Qed.

Lemma only_current_heroHandle (event : HeroEvent) (h : Hero) :
  only_current (autoplayInterval h) (hero_timers h) →
  only_current (autoplayInterval (heroHandle event h)) (hero_timers (heroHandle event h)).
Proof.
  intros Honly. destruct event; cbn [heroHandle];
    try (by apply only_current_startAutoplay).
  - intros x. rewrite only_current_stopAutoplay by done. by intros ?%elem_of_empty.
  - by case_decide.
Qed.

(** X22: however the visitor clicks, hovers and presses keys and whenever
    intervals come due, at most one autoplay interval is alive at any time,
    and it is the one [autoplayInterval] holds: every restart clears the
    previous interval first.  While the pointer is over the carousel no
    interval is alive, and after a click, a key or the pointer leaving
    exactly one is. *)
Theorem autoplay_keeps_one_interval (slideClasses indicatorClasses : list bool)
    (k : option Controls) (events : list HeroEvent) :
  let h := foldl (λ h event, heroHandle event h)
                 (heroLoad slideClasses indicatorClasses k) events in
  (∀ x, x ∈ alive (hero_timers h) → autoplayInterval h = Some x) ∧
  size (alive (hero_timers h)) ≤ 1 ∧
  (∀ earlier, events = earlier ++ [MouseEnter] → alive (hero_timers h) = ∅) ∧
  (∀ earlier event, events = earlier ++ [event] →
     event ∈ [ClickPrev; ClickNext; KeyArrowLeft; KeyArrowRight; MouseLeave] →
     size (alive (hero_timers h)) = 1).
Proof.
  intros h.
  assert (∀ evs, only_current
            (autoplayInterval (foldl (λ h event, heroHandle event h)
                                 (heroLoad slideClasses indicatorClasses k) evs))
            (hero_timers (foldl (λ h event, heroHandle event h)
                            (heroLoad slideClasses indicatorClasses k) evs))) as Hinv.
  { intros evs. induction evs as [|event evs IH] using rev_ind.
    - apply only_current_startAutoplay. intros x. cbn. by intros ?%elem_of_empty.
    - rewrite foldl_app. cbn [foldl]. by apply only_current_heroHandle. }
  split_and!.
  - apply Hinv.
  - destruct (decide (alive (hero_timers h) = ∅)) as [->|Hne]; [rewrite size_empty; lia|].
    apply set_choose_L in Hne as [x Hx].
    replace (alive (hero_timers h)) with ({[x]} : gset nat);
      [rewrite size_singleton; lia|].
    apply set_eq. intros y. rewrite elem_of_singleton. split; [by intros ->|].
    intros Hy. apply (Hinv events) in Hx, Hy. fold h in Hx, Hy. congruence.
  - intros earlier ->. unfold h. rewrite foldl_app. cbn [foldl heroHandle].
    by apply only_current_stopAutoplay.
  - intros earlier event -> Hevent. unfold h. rewrite foldl_app. cbn [foldl].
    assert (∀ g, alive (hero_timers (startAutoplay g)) =
                 {[S (handed_out (hero_timers g))]} →
                 size (alive (hero_timers (startAutoplay g))) = 1) as Hone.
    { intros g ->. apply size_singleton. }
    repeat (apply elem_of_cons in Hevent as [->|Hevent]);
      [..|by apply elem_of_nil in Hevent]; cbn [heroHandle];
      apply Hone, only_current_startAutoplay; try apply Hinv.
    all: unfold slide; cbn [autoplayInterval hero_timers]; apply Hinv.
Qed.

(** X19: when no timer other than the one in [searchTimeout] is pending, a
    burst of keystrokes leaves exactly one timer pending, the one set by
    the last keystroke, without calling [search]; when that timer comes
    due [search] is called once, with the text of the last keystroke, and
    no timer is left; a timer that was cleared does nothing when its time
    comes. *)
Theorem debounce_one_search_per_burst (box : SearchBox) (texts : list jsstring)
    (final : jsstring) :
  only_current (searchTimeout box) (box_timers box) →
  let box' := foldl (λ b text, onInput text b) box (texts ++ [final]) in
  ∃ handle,
    searchTimeout box' = Some handle ∧
    alive (box_timers box') = {[handle]} ∧
    input_value box' = final ∧
    searched box' = searched box ∧
    searched (onTimeout handle box') = searched box ++ [final] ∧
    alive (box_timers (onTimeout handle box')) = ∅ ∧
    ∀ other, other ≠ handle → onTimeout other box' = box'.
Proof.
  intros Honly box'.
  assert (∀ b text, only_current (searchTimeout b) (box_timers b) →
            searchTimeout (onInput text b) = Some (S (handed_out (box_timers b))) ∧
            alive (box_timers (onInput text b)) = {[S (handed_out (box_timers b))]} ∧
            input_value (onInput text b) = text ∧
            searched (onInput text b) = searched b) as Hstep.
  { intros b text Hb. destruct (only_current_restart _ _ Hb) as [Halive Hhandle].
    unfold onInput. destruct (setTimer _) as [handle timers]. cbn in *. by subst. }
  assert (∀ b text, only_current (searchTimeout b) (box_timers b) →
            only_current (searchTimeout (onInput text b)) (box_timers (onInput text b)))
    as Hkeep.
  { intros b text Hb. destruct (Hstep b text Hb) as (Hvar & Halive & _).
    intros x. rewrite Halive, Hvar. by intros ->%elem_of_singleton. }
  assert (only_current (searchTimeout (foldl (λ b text, onInput text b) box texts))
            (box_timers (foldl (λ b text, onInput text b) box texts)) ∧
          searched (foldl (λ b text, onInput text b) box texts) = searched box)
    as [Hmid Hsearched].
  { induction texts as [|text texts [IH1 IH2]] using rev_ind; [done|].
    rewrite foldl_app. cbn [foldl]. split; [by apply Hkeep|].
    by destruct (Hstep _ text IH1) as (_ & _ & _ & ->). }
  unfold box'. rewrite foldl_app. cbn [foldl].
  set (mid := foldl _ box texts) in *.
  destruct (Hstep mid final Hmid) as (Hvar & Halive & Hvalue & Hlog).
  exists (S (handed_out (box_timers mid))).
  split; [done|]. split; [done|]. split; [done|].
  split; [by rewrite Hlog|].
  split; [|split].
  - unfold onTimeout. rewrite decide_True by (rewrite Halive; set_solver).
    cbn [searched]. by rewrite Hlog, Hsearched, Hvalue.
  - unfold onTimeout. rewrite decide_True by (rewrite Halive; set_solver).
    cbn [box_timers alive]. rewrite Halive. set_solver.
  - intros other Hother. unfold onTimeout. rewrite decide_False; [done|].
    rewrite Halive. set_solver.
Qed.

Lemma debounce_one_search_per_burst_witness :
  let box := MkSearchBox [] None (MkTimers ∅ 0) [] in
  only_current (searchTimeout box) (box_timers box) ∧
  ∃ handle,
    searched (onTimeout handle
                (foldl (λ b text, onInput text b) box
                   ([str "w"; str "wa"] ++ [str "wal"]))) = [str "wal"].
Proof.
  intros box.
  assert (only_current (searchTimeout box) (box_timers box)) as Honly.
  { intros h. cbn. by intros ?%elem_of_empty. }
  split; [exact Honly|].
  destruct (debounce_one_search_per_burst box [str "w"; str "wa"] (str "wal") Honly)
    as (handle & _ & _ & _ & _ & Hsearched & _).
  exists handle. exact Hsearched.
Defined.

(** ** The e-mail pattern *)

Lemma Matches_cat_inv (r1 r2 : Regex) (s : jsstring) :
  Matches (RCat r1 r2) s ↔ ∃ s1 s2, s = s1 ++ s2 ∧ Matches r1 s1 ∧ Matches r2 s2.
Proof.
  split.
  - intros Hm. remember (RCat r1 r2) as r eqn:Hr.
    destruct Hm as [| | | |r1' r2' s1 s2 H1 H2| |]; try done.
    injection Hr as -> ->. by exists s1, s2.
  - intros (s1 & s2 & -> & H1 & H2). by constructor.
Qed.

Lemma Matches_alt_inv (r1 r2 : Regex) (s : jsstring) :
  Matches (RAlt r1 r2) s ↔ Matches r1 s ∨ Matches r2 s.
Proof.
  split.
  - intros Hm. remember (RAlt r1 r2) as r eqn:Hr.
    destruct Hm; try done; injection Hr as -> ->; [by left|by right].
  - intros [?|?]; [by apply matches_alt_l|by apply matches_alt_r].
Qed.

Lemma Matches_class (member : N → bool) (s : jsstring) :
  Matches (RClass member) s ↔ ∃ c, s = [c] ∧ member c = true.
Proof.
  split.
  - intros Hm. remember (RClass member) as r eqn:Hr.
    destruct Hm; try done. injection Hr as ->. by eexists.
  - intros (c & -> & Hc). by constructor.
Qed.

Lemma Matches_none (s : jsstring) : ¬ Matches RNone s.
Proof. intros Hm. remember RNone as r eqn:Hr. by destruct Hm. Qed.

Lemma Matches_empty (s : jsstring) : Matches REmpty s ↔ s = [].
Proof.
  split.
  - intros Hm. remember REmpty as r eqn:Hr. by destruct Hm.
  - intros ->. constructor.
Qed.

Lemma Matches_nil_cat (r1 r2 : Regex) :
  Matches (RCat r1 r2) [] ↔ Matches r1 [] ∧ Matches r2 [].
Proof.
  rewrite Matches_cat_inv. split.
  - intros (s1 & s2 & Heq & H1 & H2). symmetry in Heq.
    by apply app_eq_nil in Heq as [-> ->].
  - intros [H1 H2]. by exists [], [].
Qed.

Lemma nullable_Matches (r : Regex) : nullable r = true ↔ Matches r [].
Proof.
  induction r as [| |member|r1 IH1 r2 IH2|r1 IH1 r2 IH2|r IH]; simpl.
  - split; [done|]. by intros ?%Matches_none.
  - by rewrite Matches_empty.
  - rewrite Matches_class. split; [done|]. by intros (c & ? & _).
  - by rewrite orb_true_iff, IH1, IH2, Matches_alt_inv.
  - by rewrite andb_true_iff, IH1, IH2, Matches_nil_cat.
  - split; [constructor|done].
Qed.

Lemma Matches_star_cons (r : Regex) (c : N) (s : jsstring) :
  Matches (RStar r) (c :: s) →
  ∃ s1 s2, s = s1 ++ s2 ∧ Matches r (c :: s1) ∧ Matches (RStar r) s2.
Proof.
  intros Hm. remember (RStar r) as r' eqn:Hr. remember (c :: s) as s' eqn:Hs.
  revert s Hs.
  induction Hm as [| | | | | |r0 s1 s2 H1 _ H2 IH2]; intros t Ht; try done.
  injection Hr as ->. destruct s1 as [|d s1].
  - by apply IH2.
  - injection Ht as -> <-. by exists s1, s2.
Qed.

(** Matching the rest after a code unit is matching with that code unit in
    front. *)
Lemma derive_Matches (c : N) (r : Regex) (s : jsstring) :
  Matches (derive c r) s ↔ Matches r (c :: s).
Proof.
  revert s.
  induction r as [| |member|r1 IH1 r2 IH2|r1 IH1 r2 IH2|r IH]; intros s; simpl.
  - split; by intros ?%Matches_none.
  - rewrite Matches_empty. split; [by intros ?%Matches_none|done].
  - rewrite Matches_class. destruct (member c) eqn:Hc.
    + rewrite Matches_empty. split.
      * intros ->. by exists c.
      * by intros (d & [= -> ->] & _).
    + split; [by intros ?%Matches_none|].
      intros (d & [= -> ->] & ?). congruence.
  - by rewrite !Matches_alt_inv, IH1, IH2.
  - assert (Matches (RCat (derive c r1) r2) s ↔
            ∃ s1 s2, s = s1 ++ s2 ∧ Matches r1 (c :: s1) ∧ Matches r2 s2) as Hcat.
    { rewrite Matches_cat_inv. split.
      - intros (s1 & s2 & -> & H1 & H2). exists s1, s2. by rewrite <- IH1.
      - intros (s1 & s2 & -> & H1 & H2). exists s1, s2. by rewrite IH1. }
    assert (Matches (RCat r1 r2) (c :: s) ↔
            (∃ s1 s2, s = s1 ++ s2 ∧ Matches r1 (c :: s1) ∧ Matches r2 s2) ∨
            (Matches r1 [] ∧ Matches r2 (c :: s))) as Hwhole.
    { rewrite Matches_cat_inv. split.
      - intros (s1 & s2 & Heq & H1 & H2). destruct s1 as [|d s1].
        + right. simpl in Heq. by subst.
        + left. injection Heq as <- ->. by exists s1, s2.
      - intros [(s1 & s2 & -> & H1 & H2)|[H1 H2]].
        + by exists (c :: s1), s2.
        + by exists [], (c :: s). }
    rewrite Hwhole. destruct (nullable r1) eqn:Hnull.
    + apply nullable_Matches in Hnull.
      rewrite Matches_alt_inv, Hcat, IH2. naive_solver.
    + rewrite Hcat. split; [by left|]. intros [?|[Hnil _]]; [done|].
      apply nullable_Matches in Hnil. congruence.
  - rewrite Matches_cat_inv. split.
    + intros (s1 & s2 & -> & H1 & H2).
      apply (matches_star_more r (c :: s1) s2); [by apply IH|done].
    + intros (s1 & s2 & -> & H1 & H2)%Matches_star_cons.
      exists s1, s2. by rewrite IH.
Qed.

(** The matcher decides membership. *)
Lemma test_Matches (r : Regex) (s : jsstring) : test r s = true ↔ Matches r s.
Proof.
  unfold test. revert r. induction s as [|c s IH]; intros r.
  - apply nullable_Matches.
  - simpl. by rewrite IH, derive_Matches.
Qed.

Lemma Matches_star_class (member : N → bool) (s : jsstring) :
  Matches (RStar (RClass member)) s ↔ forallb member s = true.
Proof.
  split.
  - intros Hm. remember (RStar (RClass member)) as r eqn:Hr.
    induction Hm as [| | | | | |r0 s1 s2 H1 _ H2 IH2]; try done.
    injection Hr as ->. apply Matches_class in H1 as (c & -> & Hc).
    simpl. rewrite Hc. by apply IH2.
  - induction s as [|c s IH]; [constructor|].
    simpl. intros [Hc Hs]%andb_true_iff.
    apply (matches_star_more _ [c] s); [by constructor|by apply IH].
Qed.

Lemma Matches_plus_class (member : N → bool) (s : jsstring) :
  Matches (RPlus (RClass member)) s ↔ s ≠ [] ∧ forallb member s = true.
Proof.
  unfold RPlus. split.
  - intros (s1 & s2 & -> & H1 & H2)%Matches_cat_inv.
    apply Matches_class in H1 as (c & -> & Hc).
    apply Matches_star_class in H2. simpl. by rewrite Hc.
  - destruct s as [|c s]; [by intros []|]. simpl.
    intros [_ [Hc Hs]%andb_true_iff].
    apply (matches_cat _ _ [c] s); [by constructor|by apply Matches_star_class].
Qed.

(** X23: [isValidEmail] accepts exactly the strings that consist of a
    non-empty local part, one [@] and a domain, with no white space and no
    further [@] anywhere, whose domain has a full stop that is neither its
    first nor its last code unit.  Nothing else is checked: full stops may
    stand anywhere else, also side by side. *)
Theorem isValidEmail_accepts (email : jsstring) :
  isValidEmail email = true ↔
  ∃ local domain,
    email = local ++ at_sign :: domain ∧
    local ≠ [] ∧
    (∀ c, c ∈ local ++ domain → c ≠ at_sign ∧ isWhiteSpace c = false) ∧
    ∃ i, 0 < i ∧ S i < length domain ∧ domain !! i = Some full_stop.
Proof.
  assert (∀ s, forallb notSpaceNorAt s = true ↔
               ∀ c, c ∈ s → c ≠ at_sign ∧ isWhiteSpace c = false) as Hword.
  { intros s. rewrite forallb_forall. unfold notSpaceNorAt.
    split; intros H c Hc.
    - apply list_elem_of_In, H in Hc. apply negb_true_iff, orb_false_iff in Hc as [? Hat].
      split; [|done]. intros ->. by rewrite N.eqb_refl in Hat.
    - apply list_elem_of_In, H in Hc as [Hat Hws]. rewrite Hws. simpl.
      apply negb_true_iff, N.eqb_neq. done. }
  unfold isValidEmail. rewrite test_Matches. unfold emailRegex.
  rewrite Matches_cat_inv. split.
  - intros (local & rest & -> & [Hlocal Hlw]%Matches_plus_class & Hrest).
    apply Matches_cat_inv in Hrest
      as (a & rest' & -> & (c & -> & ->%N.eqb_eq)%Matches_class & Hrest).
    apply Matches_cat_inv in Hrest
      as (b & rest'' & -> & [Hb Hbw]%Matches_plus_class & Hrest).
    apply Matches_cat_inv in Hrest
      as (d & tld & -> & (c & -> & ->%N.eqb_eq)%Matches_class
            & [Htld Htw]%Matches_plus_class).
    exists local, (b ++ [full_stop] ++ tld). split; [done|]. split; [done|]. split.
    + intros c. rewrite !elem_of_app.
      pose proof (proj1 (Hword _) Hlw). pose proof (proj1 (Hword _) Hbw).
      pose proof (proj1 (Hword _) Htw).
      intros [?|[?|[Hdot|?]]]; auto.
      apply list_elem_of_singleton in Hdot as ->. done.
    + exists (length b). split_and!.
      * destruct b; simpl; [done|lia].
      * rewrite !length_app. destruct tld; simpl; [done|lia].
      * by rewrite lookup_app_r, Nat.sub_diag.
  - intros (local & domain & -> & Hlocal & Hchars & i & Hi & Hlen & Hdot).
    exists local, (at_sign :: domain). split; [done|]. split.
    { apply Matches_plus_class. split; [done|]. apply Hword.
      intros c Hc. apply Hchars, elem_of_app. by left. }
    apply Matches_cat_inv. exists [at_sign], domain. split; [done|]. split.
    { apply Matches_class. exists at_sign. by rewrite N.eqb_refl. }
    rewrite <- (take_drop_middle domain i full_stop Hdot).
    apply Matches_cat_inv. exists (take i domain), (full_stop :: drop (S i) domain).
    split; [done|].
    assert (∀ c, c ∈ domain → c ≠ at_sign ∧ isWhiteSpace c = false) as Hdomain.
    { intros c Hc. apply Hchars, elem_of_app. by right. }
    split.
    { apply Matches_plus_class. split.
      - intros Hnil. apply (f_equal length) in Hnil. rewrite length_take in Hnil.
        simpl in Hnil. lia.
      - apply Hword. intros c Hc. apply Hdomain.
        by apply (subseteq_take i domain). }
    apply Matches_cat_inv. exists [full_stop], (drop (S i) domain).
    split; [done|]. split.
    { apply Matches_class. exists full_stop. by rewrite N.eqb_refl. }
    apply Matches_plus_class. split.
    + intros Hnil. apply (f_equal length) in Hnil. rewrite length_drop in Hnil.
      simpl in Hnil. lia.
    + apply Hword. intros c Hc. apply Hdomain. by apply (subseteq_drop (S i) domain).
Qed.

(** ** The detail panes *)


